(** * Snake-Game: a shallow embedding of [main.py] and its verification

    The game engine of [main.py] ([SnakeGame.reset_game], [_spawn_food],
    [_handle_input], [_key_to_direction], [_is_valid_direction],
    [_update_game_state] and [_check_collision]) is embedded as Rocq
    functions.  Python integers are [Z], tuples are pairs, the snake is a
    list with the head at index 0, the [key_map] dictionary is a [gmap].

    Two effects of the program live outside the game object and are threaded
    through a small state-and-error monad [M]:
    - the process-wide random source read by [random.randrange];
    - the beep emitted by [_play_sound].
    A Python exception ([IndexError], [ValueError]) is the [None] of [M]. *)

From stdpp Require Import base option list gmap.
From Stdlib Require Import ZArith Lia.

Local Open Scope Z_scope.

(** ** Configuration constants ([class GameConfig]) *)

Module GameConfig.
Definition WIDTH : Z := 600.
Definition HEIGHT : Z := 400.
Definition BLOCK_SIZE : Z := 20.
End GameConfig.
Import GameConfig.

(** A cell is a [Tuple[int, int]]. *)
Abbreviation Cell := (Z * Z)%type.

(** ** The world outside the game object *)

(** [rng] is the sequence of raw draws still to be consumed by the random
    source; [beeps] counts the calls of [_play_sound]. *)
Record World : Type := mkWorld {
  rng : nat -> Z;
  beeps : nat
}.

Definition M (A : Type) : Type := World -> option (A * World).

#[global] Instance M_ret : MRet M := fun A (a : A) w => Some (a, w).

#[global] Instance M_bind : MBind M := fun A B (k : A -> M B) (c : M A) w =>
  match c w with
  | Some (a, w') => k a w'
  | None => None
  end.

(** A raised exception. *)
Definition raise {A : Type} : M A := fun _ => None.

(** ** [random.randrange] *)

(** [Random._randbelow(n)] yields some integer of [[0, n)]: the next raw draw
    reduced modulo [n].  Every sequence of results of the real generator is
    the image of some [rng]; its distribution is not modelled. *)
Definition _randbelow (n : Z) : M Z := fun w =>
  Some (rng w 0%nat `mod` n, {| rng := fun i => rng w (S i); beeps := beeps w |}).

(** [random.randrange(start, stop, step)] of CPython: the number of admissible
    values is computed first, [ValueError] is raised when there is none. *)
Definition randrange (start stop step : Z) : M Z :=
  let width := stop - start in
  if step =? 0 then raise
  else
    let n := if 0 <? step then (width + step - 1) `div` step
             else (width + step + 1) `div` step in
    if n <=? 0 then raise
    else k ← _randbelow n; mret (start + step * k).

(** ** The game object ([class SnakeGame]) *)

Record SnakeGame : Type := mkGame {
  snake : list Cell;
  direction : Cell;
  food_pos : Cell;
  score : Z;
  game_over : bool
}.

Definition set_snake (l : list Cell) (self : SnakeGame) : SnakeGame :=
  mkGame l (direction self) (food_pos self) (score self) (game_over self).
Definition set_direction (d : Cell) (self : SnakeGame) : SnakeGame :=
  mkGame (snake self) d (food_pos self) (score self) (game_over self).
Definition set_food_pos (f : Cell) (self : SnakeGame) : SnakeGame :=
  mkGame (snake self) (direction self) f (score self) (game_over self).
Definition set_score (n : Z) (self : SnakeGame) : SnakeGame :=
  mkGame (snake self) (direction self) (food_pos self) n (game_over self).
Definition set_game_over (b : bool) (self : SnakeGame) : SnakeGame :=
  mkGame (snake self) (direction self) (food_pos self) (score self) b.

(** [_spawn_food]: two independent draws, no look at the snake. *)
Definition _spawn_food : M Cell :=
  x ← randrange 0 WIDTH BLOCK_SIZE;
  y ← randrange 0 HEIGHT BLOCK_SIZE;
  mret (x, y).

(** [reset_game] assigns every field of the game object. *)
Definition reset_game : M SnakeGame :=
  let snake0 := [(WIDTH `div` 2, HEIGHT `div` 2)] in
  let direction0 := (BLOCK_SIZE, 0) in
  f ← _spawn_food;
  mret (mkGame snake0 direction0 f 0 false).

(** [_play_sound]: one beep, whichever back end produces it. *)
Definition _play_sound : M unit := fun w =>
  Some (tt, {| rng := rng w; beeps := S (beeps w) |}).

(** [_is_valid_direction] *)
Definition _is_valid_direction (self : SnakeGame) (d : Cell) : bool :=
  let opposite := (- (direction self).1, - (direction self).2) in
  bool_decide (d ≠ opposite).

(** [_check_collision] *)
Definition _check_collision (self : SnakeGame) (head : Cell) : bool :=
  let '(x, y) := head in
  if (x <? 0) || (x >=? WIDTH) || (y <? 0) || (y >=? HEIGHT) then true
  else if bool_decide (head ∈ snake self) then true
  else false.

(** [list.pop()] removes the last item and raises [IndexError] on an empty
    list. *)
Definition pop (l : list Cell) : M (list Cell) :=
  match l with
  | [] => raise
  | _ :: _ => mret (removelast l)
  end.

(** [_update_game_state]: one tick.  [self.snake[0]] raises [IndexError] on
    an empty snake. *)
Definition _update_game_state (self : SnakeGame) : M SnakeGame :=
  match snake self with
  | [] => raise
  | h0 :: _ =>
    let new_head := (h0.1 + (direction self).1, h0.2 + (direction self).2) in
    if _check_collision self new_head then
      _ ← _play_sound;
      mret (set_game_over true self)
    else
      let self := set_snake (new_head :: snake self) self in
      if bool_decide (new_head = food_pos self) then
        let self := set_score (score self + 1) self in
        f ← _spawn_food;
        mret (set_food_pos f self)
      else
        l ← pop (snake self);
        mret (set_snake l self)
  end.

(** ** Input handling *)

(** The events of [pygame.event.get()] as far as [_handle_input] tells them
    apart. *)
Inductive Event : Type :=
| QUIT
| KEYDOWN (key : Z)
| OtherEvent.

Section Keys.
(** The key codes [pygame.K_UP], ... are constants of pygame. *)
Variables K_UP K_DOWN K_LEFT K_RIGHT : Z.

(** The dictionary literal of [_key_to_direction]: a later item overrides an
    earlier one with the same key. *)
Definition key_map : gmap Z Cell :=
  <[K_RIGHT := (BLOCK_SIZE, 0)]>
    (<[K_LEFT := (- BLOCK_SIZE, 0)]>
      (<[K_DOWN := (0, BLOCK_SIZE)]>
        (<[K_UP := (0, - BLOCK_SIZE)]> ∅))).

Definition _key_to_direction (key : Z) : option Cell := key_map !! key.

(** [_handle_input] over the events of one frame.  A tuple is truthy, so
    [new_direction and ...] only filters [None]. *)
Fixpoint _handle_input (events : list Event) (self : SnakeGame)
  : bool * SnakeGame :=
  match events with
  | [] => (true, self)
  | QUIT :: _ => (false, self)
  | KEYDOWN key :: rest =>
    match _key_to_direction key with
    | Some new_direction =>
      if _is_valid_direction self new_direction
      then _handle_input rest (set_direction new_direction self)
      else _handle_input rest self
    | None => _handle_input rest self
    end
  | OtherEvent :: rest => _handle_input rest self
  end.

End Keys.

(** ** Vocabulary of the statements *)

(** The new head computed by a tick from the current head [h0]. *)
Definition advance (self : SnakeGame) (h0 : Cell) : Cell :=
  (h0.1 + (direction self).1, h0.2 + (direction self).2).

(** Inside [[0, WIDTH) × [0, HEIGHT)]. *)
Definition in_bounds (c : Cell) : Prop :=
  0 <= c.1 < WIDTH /\ 0 <= c.2 < HEIGHT.

(** Both coordinates are multiples of the cell size. *)
Definition aligned (c : Cell) : Prop :=
  (BLOCK_SIZE | c.1) /\ (BLOCK_SIZE | c.2).

(** One of the four axis-aligned steps. *)
Definition is_direction (d : Cell) : Prop :=
  d = (BLOCK_SIZE, 0) \/ d = (- BLOCK_SIZE, 0) \/
  d = (0, BLOCK_SIZE) \/ d = (0, - BLOCK_SIZE).

Definition grid_aligned (g : SnakeGame) : Prop :=
  is_direction (direction g) /\ Forall aligned (snake g) /\ aligned (food_pos g).

(** The snake covers the whole grid. *)
Definition board_full (l : list Cell) : Prop :=
  forall c, in_bounds c -> aligned c -> c ∈ l.

(** The world after [n] draws, and after one beep. *)
Definition drawn (n : nat) (w : World) : World :=
  {| rng := fun i => rng w (n + i)%nat; beeps := beeps w |}.
Definition beeped (w : World) : World :=
  {| rng := rng w; beeps := S (beeps w) |}.

(** The food cell chosen from the next two draws. *)
Definition food_of (w : World) : Cell :=
  (BLOCK_SIZE * (rng w 0%nat `mod` 30), BLOCK_SIZE * (rng w 1%nat `mod` 20)).

(** ** Equations of the operations *)

Lemma spawn_food_eq (w : World) :
  _spawn_food w = Some (food_of w, drawn 2 w).
Proof. reflexivity. Qed.

Lemma reset_game_eq (w : World) :
  reset_game w = Some (mkGame [(300, 200)] (20, 0) (food_of w) 0 false, drawn 2 w).
Proof. reflexivity. Qed.

Lemma check_collision_true (g : SnakeGame) (h : Cell) :
  _check_collision g h = true <-> ~ in_bounds h \/ h ∈ snake g.
Proof.
  unfold _check_collision, in_bounds, WIDTH, HEIGHT. destruct h as [x y]; simpl.
  destruct (x <? 0) eqn:E1; simpl; [split; [left|]; [lia | done] |].
  destruct (x >=? 600) eqn:E2; simpl; [split; [left|]; [lia | done] |].
  destruct (y <? 0) eqn:E3; simpl; [split; [left|]; [lia | done] |].
  destruct (y >=? 400) eqn:E4; simpl; [split; [left|]; [lia | done] |].
  case_bool_decide as Hin.
  - split; [by right | done].
  - split; [done | intros [Hout | Hin']; [lia | done]].
Qed.

Lemma check_collision_false (g : SnakeGame) (h : Cell) :
  _check_collision g h = false <-> in_bounds h /\ h ∉ snake g.
Proof.
  rewrite <- not_true_iff_false, check_collision_true.
  unfold in_bounds. split.
  - intros Hn. split; [| tauto].
    destruct (decide (0 <= h.1 < WIDTH /\ 0 <= h.2 < HEIGHT)); tauto.
  - tauto.
Qed.

Section Tick.
Variables (g : SnakeGame) (w : World) (h0 : Cell) (t : list Cell).
Hypothesis Hsnake : snake g = h0 :: t.

Lemma tick_collide :
  _check_collision g (advance g h0) = true ->
  _update_game_state g w = Some (set_game_over true g, beeped w).
Proof.
  intros Hc. unfold _update_game_state. rewrite Hsnake.
  fold (advance g h0). by rewrite Hc.
Qed.

Lemma tick_eat :
  _check_collision g (advance g h0) = false ->
  advance g h0 = food_pos g ->
  _update_game_state g w =
    Some (mkGame (advance g h0 :: snake g) (direction g) (food_of w)
                 (score g + 1) (game_over g), drawn 2 w).
Proof.
  intros Hc Hf. unfold _update_game_state. rewrite Hsnake.
  fold (advance g h0). rewrite Hc. simpl food_pos.
  by rewrite bool_decide_eq_true_2.
Qed.

Lemma tick_move :
  _check_collision g (advance g h0) = false ->
  advance g h0 <> food_pos g ->
  _update_game_state g w =
    Some (set_snake (advance g h0 :: removelast (snake g)) g, w).
Proof.
  intros Hc Hf. unfold _update_game_state. rewrite Hsnake.
  fold (advance g h0). rewrite Hc. simpl food_pos.
  rewrite bool_decide_eq_false_2 by done.
  destruct w; reflexivity.
Qed.
End Tick.

(** A tick on a non-empty snake never raises. *)
Lemma tick_total (g : SnakeGame) (w : World) (h0 : Cell) (t : list Cell) :
  snake g = h0 :: t ->
  exists g' w', _update_game_state g w = Some (g', w').
Proof.
  intros Hs.
  destruct (_check_collision g (advance g h0)) eqn:Hc.
  - eauto using tick_collide.
  - destruct (decide (advance g h0 = food_pos g)).
    + eauto using tick_eat.
    + eauto using tick_move.
Qed.

Lemma length_removelast_cons (h0 : Cell) (t : list Cell) :
  length (removelast (h0 :: t)) = length t.
Proof.
  revert h0. induction t as [| a t IH]; intros h0; [done |].
  change (removelast (h0 :: a :: t)) with (h0 :: removelast (a :: t)).
  cbn [length]. by rewrite IH.
Qed.

Lemma elem_of_removelast (c : Cell) (l : list Cell) :
  c ∈ removelast l -> c ∈ l.
Proof.
  induction l as [| a l IH]; [done |].
  destruct l as [| b l]; [simpl; by intros ?%elem_of_nil |].
  change (removelast (a :: b :: l)) with (a :: removelast (b :: l)).
  rewrite !(elem_of_cons _ c a). intros [-> | H]; [by left | right; by apply IH].
Qed.

(** ** Collision claims *)

(** C1 (amended).  The self-collision test of a tick looks at the whole snake
    as it is before the move, on growth and non-growth steps alike: with the
    new head inside the grid, the tick ends in game over exactly when the new
    head is one of the current cells, and in particular when it is the
    current tail cell. *)
Theorem self_collision_tests_whole_body
    (g : SnakeGame) (w : World) (h0 : Cell) (t : list Cell) :
  game_over g = false ->
  snake g = h0 :: t ->
  in_bounds (advance g h0) ->
  exists g' w',
    _update_game_state g w = Some (g', w') /\
    (game_over g' = true <-> advance g h0 ∈ snake g) /\
    (last (snake g) = Some (advance g h0) -> g' = set_game_over true g).
Proof.
  intros Hplay Hs Hin.
  destruct (decide (advance g h0 ∈ snake g)) as [Hmem | Hmem].
  - assert (Hc : _check_collision g (advance g h0) = true)
      by (apply check_collision_true; by right).
    eexists _, _. split; [by eapply tick_collide |].
    split; [done |]. done.
  - assert (Hc : _check_collision g (advance g h0) = false)
      by (by apply check_collision_false).
    assert (Hlast : last (snake g) <> Some (advance g h0)).
    { intros Hl. apply Hmem. apply list_elem_of_lookup.
      exists (pred (length (snake g))). by rewrite <- last_lookup. }
    destruct (decide (advance g h0 = food_pos g)) as [Hf | Hf].
    + eexists _, _. split; [by eapply tick_eat |]. simpl.
      rewrite Hplay. split; [split; [done | tauto] | done].
    + eexists _, _. split; [by eapply tick_move |]. simpl.
      rewrite Hplay. split; [split; [done | tauto] | done].
Qed.

(** C5.  In phase Playing a tick on a new head outside
    [[0, 600) × [0, 400)] always ends in game over, whatever the snake; with
    the new head inside, the tick ends in game over only through the
    self-collision test.  So the wall-collision game over occurs exactly when
    the new head lies outside the grid. *)
Theorem wall_collision_iff_out_of_bounds
    (g : SnakeGame) (w : World) (h0 : Cell) (t : list Cell) :
  game_over g = false ->
  snake g = h0 :: t ->
  let nh := advance g h0 in
  let outside := ~ (0 <= nh.1 < 600 /\ 0 <= nh.2 < 400) in
  exists g' w',
    _update_game_state g w = Some (g', w') /\
    (outside -> game_over g' = true) /\
    (game_over g' = true /\ nh ∉ snake g -> outside) /\
    (game_over g' = true <-> outside \/ nh ∈ snake g).
Proof.
  intros Hplay Hs nh outside.
  destruct (_check_collision g nh) eqn:Hc.
  - eexists _, _. split; [by eapply tick_collide |]. simpl.
    apply check_collision_true in Hc. fold nh in Hc.
    change (~ in_bounds nh) with outside in Hc. tauto.
  - pose proof Hc as Hc'. apply check_collision_false in Hc' as [Hin Hmem].
    assert (Hno : ~ outside) by (intros Ho; by apply Ho).
    destruct (decide (nh = food_pos g)) as [Hf | Hf].
    + eexists _, _. split; [by eapply tick_eat |]. simpl. rewrite Hplay.
      split; [tauto |]. split; [by intros [? _] |]. split; [done | tauto].
    + eexists _, _. split; [by eapply tick_move |]. simpl. rewrite Hplay.
      split; [tauto |]. split; [by intros [? _] |]. split; [done | tauto].
Qed.

(** C6.  A tick in phase Playing without collision keeps the length of the
    snake, unless the new head is the food position: then the length grows
    by one. *)
Theorem tick_length
    (g : SnakeGame) (w : World) (h0 : Cell) (t : list Cell) :
  game_over g = false ->
  snake g = h0 :: t ->
  _check_collision g (advance g h0) = false ->
  exists g' w',
    _update_game_state g w = Some (g', w') /\
    length (snake g') =
      if decide (advance g h0 = food_pos g)
      then S (length (snake g)) else length (snake g).
Proof.
  intros _ Hs Hc. case_decide as Hf.
  - eexists _, _. split; [by eapply tick_eat |]. done.
  - eexists _, _. split; [by eapply tick_move |].
    unfold set_snake; cbn [snake]. rewrite Hs. cbn [length].
    by rewrite length_removelast_cons.
Qed.

(** C9.  When the collision check of a tick fires (wall or self), the snake,
    the food position, the score and the direction are left as they were;
    only the game-over flag is set. *)
Theorem collision_changes_only_phase
    (g : SnakeGame) (w : World) (h0 : Cell) (t : list Cell) :
  snake g = h0 :: t ->
  _check_collision g (advance g h0) = true ->
  exists g' w',
    _update_game_state g w = Some (g', w') /\
    snake g' = snake g /\ food_pos g' = food_pos g /\ score g' = score g /\
    direction g' = direction g /\ game_over g' = true.
Proof.
  intros Hs Hc. eexists _, _. split; [by eapply tick_collide |]. done.
Qed.

(** ** Food placement *)

Lemma food_of_in_grid (w : World) : in_bounds (food_of w) /\ aligned (food_of w).
Proof.
  unfold in_bounds, aligned, food_of, WIDTH, HEIGHT, BLOCK_SIZE; simpl.
  pose proof (Z.mod_pos_bound (rng w 0%nat) 30 ltac:(lia)).
  pose proof (Z.mod_pos_bound (rng w 1%nat) 20 ltac:(lia)).
  repeat split; try lia; apply Z.divide_factor_l.
Qed.

(** The world whose next two draws are [a] and [b]. *)
Definition world_of_draws (a b : Z) : World :=
  {| rng := fun i => match i with O => a | _ => b end; beeps := 0 |}.

Lemma food_of_surjective (c : Cell) :
  in_bounds c -> aligned c ->
  food_of (world_of_draws (c.1 `div` 20) (c.2 `div` 20)) = c.
Proof.
  destruct c as [x y].
  unfold in_bounds, aligned, food_of, WIDTH, HEIGHT, BLOCK_SIZE; simpl.
  intros [Hx Hy] [[i ->] [j ->]].
  rewrite !Z.div_mul by lia.
  rewrite !Z.mod_small by lia. f_equal; lia.
Qed.

(** C3 (amended).  [_spawn_food] always returns a grid-aligned cell within
    the grid bounds, but it does not look at the snake: every cell of the
    grid, one occupied by the snake included, is returned for some state of
    the random source. *)
Theorem spawn_food_in_grid_ignores_snake :
  (forall w : World,
     exists c w', _spawn_food w = Some (c, w') /\ in_bounds c /\ aligned c) /\
  (forall (body : list Cell) (c : Cell),
     c ∈ body -> in_bounds c -> aligned c ->
     exists w w', _spawn_food w = Some (c, w')).
Proof.
  split.
  - intros w. exists (food_of w), (drawn 2 w).
    split; [apply spawn_food_eq | apply food_of_in_grid].
  - intros body c _ Hin Hal.
    eexists (world_of_draws (c.1 `div` 20) (c.2 `div` 20)), _.
    rewrite spawn_food_eq. by rewrite food_of_surjective.
Qed.

(** C4 (amended).  A growth step performs no board-full test: whatever the
    snake covers, the tick completes as an ordinary ate-food step (no
    exception, game-over flag untouched, no beep) after exactly one spawn
    attempt of two draws; when the grown snake covers the whole grid, the new
    food lies on the snake. *)
Theorem growth_step_has_no_board_full_signal
    (g : SnakeGame) (w : World) (h0 : Cell) (t : list Cell) :
  snake g = h0 :: t ->
  _check_collision g (advance g h0) = false ->
  advance g h0 = food_pos g ->
  exists g',
    _update_game_state g w = Some (g', drawn 2 w) /\
    snake g' = advance g h0 :: snake g /\
    score g' = score g + 1 /\
    game_over g' = game_over g /\
    in_bounds (food_pos g') /\ aligned (food_pos g') /\
    (board_full (snake g') -> food_pos g' ∈ snake g').
Proof.
  intros Hs Hc Hf. eexists. split; [by eapply tick_eat |]. simpl.
  pose proof (food_of_in_grid w) as [Hin Hal].
  repeat split; try done; try apply Hin; try apply Hal.
  intros Hfull. by apply Hfull.
Qed.

(** *** A snake that fills the 30 × 20 grid *)

Definition grid_row (j : Z) : list Cell :=
  (fun i => (BLOCK_SIZE * i, BLOCK_SIZE * j)) <$> seqZ 0 30.

(** Row after row, left to right on even rows and right to left on odd
    ones: consecutive cells are neighbours. *)
Definition serpentine : list Cell :=
  seqZ 0 20 ≫= (fun j => if Z.even j then grid_row j else reverse (grid_row j)).

(** Head first: the head is the last cell of the path, [(0, 380)]. *)
Definition full_snake : list Cell := reverse serpentine.

Lemma full_snake_board_full : board_full full_snake.
Proof.
  intros [x y] Hb Ha.
  unfold in_bounds, aligned, WIDTH, HEIGHT, BLOCK_SIZE in *; simpl in *.
  destruct Hb as [Hx Hy], Ha as [[i ->] [j ->]].
  unfold full_snake, serpentine.
  apply elem_of_reverse, list_elem_of_bind. exists j.
  split; [| apply elem_of_seqZ; lia].
  assert (Hrow : (i * 20, j * 20) ∈ grid_row j).
  { unfold grid_row. apply list_elem_of_fmap. exists i.
    split; [unfold BLOCK_SIZE; f_equal; lia | apply elem_of_seqZ; lia]. }
  destruct (Z.even j); [done | by apply elem_of_reverse].
Qed.

(** ** Direction changes *)

(** The vector rejected by [_is_valid_direction]. *)
Definition opposite (d : Cell) : Cell := (- d.1, - d.2).

(** The key codes of pygame 2, for concrete runs. *)
Module pygame.
Definition K_RIGHT : Z := 1073741903.
Definition K_LEFT : Z := 1073741904.
Definition K_DOWN : Z := 1073741905.
Definition K_UP : Z := 1073741906.
End pygame.

Abbreviation key_to_direction_pygame :=
  (_key_to_direction pygame.K_UP pygame.K_DOWN pygame.K_LEFT pygame.K_RIGHT).
Abbreviation handle_input_pygame :=
  (_handle_input pygame.K_UP pygame.K_DOWN pygame.K_LEFT pygame.K_RIGHT).

Section Directions.
Variables K_UP K_DOWN K_LEFT K_RIGHT : Z.
Local Abbreviation key_to_direction :=
  (_key_to_direction K_UP K_DOWN K_LEFT K_RIGHT).
Local Abbreviation handle_input := (_handle_input K_UP K_DOWN K_LEFT K_RIGHT).

Lemma key_to_direction_is_direction (key : Z) (d : Cell) :
  key_to_direction key = Some d -> is_direction d.
Proof.
  unfold _key_to_direction, key_map, is_direction.
  rewrite !lookup_insert, lookup_empty.
  repeat case_decide; intros [= <-]; tauto.
Qed.

Lemma handle_key (g : SnakeGame) (key : Z) (d : Cell) :
  key_to_direction key = Some d ->
  handle_input [KEYDOWN key] g =
    (true, if decide (d = opposite (direction g)) then g else set_direction d g).
Proof.
  intros Hk. simpl. rewrite Hk.
  unfold _is_valid_direction. fold (opposite (direction g)).
  case_bool_decide; case_decide; done.
Qed.

(** C2 (amended).  A key press that requests the exact opposite of the
    current direction leaves the game object as it is, whatever the length
    of the snake (length 1 included); every other requested direction
    becomes the current direction. *)
Theorem direction_rejected_iff_opposite
    (g : SnakeGame) (key : Z) (d : Cell) :
  key_to_direction key = Some d ->
  (d = opposite (direction g) -> handle_input [KEYDOWN key] g = (true, g)) /\
  (d <> opposite (direction g) ->
     handle_input [KEYDOWN key] g = (true, set_direction d g)).
Proof.
  intros Hk. rewrite (handle_key g key d Hk).
  split; intros Hd; by case_decide.
Qed.
End Directions.

(** ** Concrete runs *)

(** A snake of length 4 about to step onto its own tail cell. *)
Definition tail_chase : SnakeGame :=
  mkGame [(0, 0); (20, 0); (20, 20); (0, 20)] (0, 20) (100, 100) 3 false.

(** C1, as stated, fails: on a non-growth step of a snake of length 4 the new
    head equals the current tail cell and the tick ends in game over. *)
Lemma tail_cell_causes_game_over :
  (2 <= length (snake tail_chase))%nat /\
  last (snake tail_chase) = Some (advance tail_chase (0, 0)) /\
  advance tail_chase (0, 0) <> food_pos tail_chase /\
  _update_game_state tail_chase (world_of_draws 0 0) =
    Some (set_game_over true tail_chase, beeped (world_of_draws 0 0)).
Proof.
  split; [simpl; lia |]. split; [reflexivity |]. split; [discriminate |].
  reflexivity.
Qed.

(** The game object right after [reset_game], with the food at [(0, 0)]. *)
Definition fresh_game : SnakeGame :=
  mkGame [(300, 200)] (20, 0) (0, 0) 0 false.

(** C2, as stated, fails: a snake of length 1 heading right that is asked to
    go left keeps heading right. *)
Lemma single_cell_snake_cannot_reverse :
  length (snake fresh_game) = 1%nat /\
  key_to_direction_pygame pygame.K_LEFT = Some (-20, 0) /\
  (-20, 0) = opposite (direction fresh_game) /\
  handle_input_pygame [KEYDOWN pygame.K_LEFT] fresh_game = (true, fresh_game) /\
  direction fresh_game <> (-20, 0).
Proof.
  split; [reflexivity |]. split; [by vm_compute |]. split; [reflexivity |].
  split; [by vm_compute | discriminate].
Qed.

(** C3, as stated, fails: with the draws 15 and 10 the food of a fresh game
    is placed on the only cell of the snake, although 599 cells are free. *)
Lemma spawn_food_on_snake :
  exists g w',
    reset_game (world_of_draws 15 10) = Some (g, w') /\
    food_pos g ∈ snake g /\
    (in_bounds (0, 0) /\ aligned (0, 0) /\ (0, 0) ∉ snake g).
Proof.
  eexists _, _. split; [apply reset_game_eq |]. simpl.
  split; [apply list_elem_of_singleton; reflexivity |].
  split; [unfold in_bounds, WIDTH, HEIGHT; simpl; lia |].
  split; [split; apply Z.divide_0_r |].
  intros Hin%list_elem_of_singleton. discriminate.
Qed.

(** The snake covers 599 cells, the food is on the last free one, just left
    of the head. *)
Definition almost_full : SnakeGame :=
  mkGame (tail full_snake) (-20, 0) (0, 380) 598 false.

(** C4, as stated, fails: the growth step that fills the grid (600 distinct
    cells out of 30 × 20) returns an ordinary state, flag unset and nothing
    raised, with the new food on the snake. *)
Lemma board_full_not_detected :
  exists g',
    _update_game_state almost_full (world_of_draws 0 0) =
      Some (g', drawn 2 (world_of_draws 0 0)) /\
    snake g' = full_snake /\
    length (snake g') = 600%nat /\ NoDup (snake g') /\
    board_full (snake g') /\
    game_over g' = false /\
    food_pos g' ∈ snake g'.
Proof.
  eexists. split.
  { eapply (tick_eat almost_full _ (20, 380)); by vm_compute. }
  cbn [snake food_pos game_over].
  assert (Hs : advance almost_full (20, 380) :: snake almost_full = full_snake)
    by (by vm_compute).
  rewrite Hs. split; [done |]. split; [by vm_compute |].
  split; [apply (bool_decide_unpack _); by vm_compute |].
  split; [apply full_snake_board_full |]. split; [done |].
  apply full_snake_board_full; apply food_of_in_grid.
Qed.

(** ** Sessions: sequences of inputs and ticks *)

(** The cases of a tick that returns. *)
Lemma tick_inv (g g' : SnakeGame) (w w' : World) :
  _update_game_state g w = Some (g', w') ->
  exists h0 t, snake g = h0 :: t /\
    ((_check_collision g (advance g h0) = true /\
      g' = set_game_over true g /\ w' = beeped w) \/
     (_check_collision g (advance g h0) = false /\
      advance g h0 = food_pos g /\
      g' = mkGame (advance g h0 :: snake g) (direction g) (food_of w)
                  (score g + 1) (game_over g) /\ w' = drawn 2 w) \/
     (_check_collision g (advance g h0) = false /\
      advance g h0 <> food_pos g /\
      g' = set_snake (advance g h0 :: removelast (snake g)) g /\ w' = w)).
Proof.
  intros Ht. destruct (snake g) as [| h0 t] eqn:Hs.
  { unfold _update_game_state in Ht. by rewrite Hs in Ht. }
  exists h0, t. split; [done |]. rewrite <- Hs.
  destruct (_check_collision g (advance g h0)) eqn:Hc.
  - rewrite (tick_collide g w h0 t Hs Hc) in Ht. left. naive_solver.
  - right. destruct (decide (advance g h0 = food_pos g)) as [Hf | Hf].
    + rewrite (tick_eat g w h0 t Hs Hc Hf) in Ht. left. naive_solver.
    + rewrite (tick_move g w h0 t Hs Hc Hf) in Ht. right. naive_solver.
Qed.

(** [n] ticks in a row. *)
Fixpoint ticks (n : nat) (g : SnakeGame) : M SnakeGame :=
  match n with
  | O => mret g
  | S n => g' ← _update_game_state g; ticks n g'
  end.

Section Sessions.
Variables K_UP K_DOWN K_LEFT K_RIGHT : Z.
Local Abbreviation handle_input := (_handle_input K_UP K_DOWN K_LEFT K_RIGHT).

(** One operation on the game object: the inputs of a frame, or a tick. *)
Inductive Step : SnakeGame * World -> SnakeGame * World -> Prop :=
| step_input (events : list Event) (g : SnakeGame) (w : World) :
    Step (g, w) ((handle_input events g).2, w)
| step_tick (g g' : SnakeGame) (w w' : World) :
    _update_game_state g w = Some (g', w') -> Step (g, w) (g', w').

(** The states of a session: what [reset_game] returns, followed by any
    number of operations. *)
Definition Reachable (s : SnakeGame * World) : Prop :=
  exists w0 s0, reset_game w0 = Some s0 /\ rtc Step s0 s.

Lemma ticks_rtc (n : nat) (g g' : SnakeGame) (w w' : World) :
  ticks n g w = Some (g', w') -> rtc Step (g, w) (g', w').
Proof.
  revert g w. induction n as [| n IH]; intros g w; simpl.
  - intros [= -> ->]. apply rtc_refl.
  - unfold mbind, M_bind.
    destruct (_update_game_state g w) as [[g1 w1] |] eqn:Ht; [| done].
    intros Hn. eapply rtc_l; [by apply step_tick | by apply IH].
Qed.

(** [_handle_input] only ever writes the direction. *)
Lemma handle_input_frame (events : list Event) (g : SnakeGame) :
  let g' := (handle_input events g).2 in
  snake g' = snake g /\ food_pos g' = food_pos g /\
  score g' = score g /\ game_over g' = game_over g.
Proof.
  revert g. induction events as [| e events IH]; intros g; [done |].
  destruct e as [| key |]; simpl; [done | | apply IH].
  destruct (_key_to_direction _ _ _ _ key) as [d |]; [| apply IH].
  destruct (_is_valid_direction g d); [| apply IH].
  apply (IH (set_direction d g)).
Qed.

Lemma handle_input_direction (events : list Event) (g : SnakeGame) :
  is_direction (direction g) ->
  is_direction (direction (handle_input events g).2).
Proof.
  revert g. induction events as [| e events IH]; intros g Hd; [done |].
  destruct e as [| key |]; simpl; [done | | by apply IH].
  destruct (_key_to_direction _ _ _ _ key) as [d |] eqn:Hk; [| by apply IH].
  destruct (_is_valid_direction g d); [| by apply IH].
  apply IH. simpl. by eapply key_to_direction_is_direction.
Qed.

Lemma step_score (s s' : SnakeGame * World) :
  Step s s' -> score s.1 <= score s'.1.
Proof.
  intros [events g w | g g' w w' Ht]; simpl.
  - destruct (handle_input_frame events g) as (_ & _ & -> & _). lia.
  - apply tick_inv in Ht as (h0 & t & _ & Hcases).
    destruct Hcases as [(_ & -> & _) | [(_ & _ & -> & _) | (_ & _ & -> & _)]];
      simpl; lia.
Qed.

Lemma step_game_over (s s' : SnakeGame * World) :
  Step s s' -> game_over s.1 = true -> game_over s'.1 = true.
Proof.
  intros [events g w | g g' w w' Ht]; simpl.
  - by destruct (handle_input_frame events g) as (_ & _ & _ & ->).
  - apply tick_inv in Ht as (h0 & t & _ & Hcases).
    destruct Hcases as [(_ & -> & _) | [(_ & _ & -> & _) | (_ & _ & -> & _)]];
      done.
Qed.

Lemma advance_aligned (g : SnakeGame) (h0 : Cell) :
  is_direction (direction g) -> aligned h0 -> aligned (advance g h0).
Proof.
  unfold is_direction, aligned, advance, BLOCK_SIZE.
  intros Hd [Hx Hy].
  destruct Hd as [-> | [-> | [-> | ->]]]; simpl;
    split; apply Z.divide_add_r; try done;
    try apply Z.divide_0_r; try apply Z.divide_refl;
    by apply (Z.divide_opp_r 20 20), Z.divide_refl.
Qed.

Lemma Forall_aligned_removelast (l : list Cell) :
  Forall aligned l -> Forall aligned (removelast l).
Proof.
  rewrite !Forall_forall. intros Hl c Hc. by apply Hl, elem_of_removelast.
Qed.

Lemma reset_grid_aligned (w w' : World) (g : SnakeGame) :
  reset_game w = Some (g, w') -> grid_aligned g.
Proof.
  rewrite reset_game_eq. intros [= <- _]. split; [by left |]. simpl. split.
  - apply Forall_singleton. split; simpl.
    + by exists 15.
    + by exists 10.
  - apply food_of_in_grid.
Qed.

Lemma tick_grid_aligned (g g' : SnakeGame) (w w' : World) :
  grid_aligned g -> _update_game_state g w = Some (g', w') -> grid_aligned g'.
Proof.
  intros (Hd & Hsn & Hf) Ht.
  apply tick_inv in Ht as (h0 & t & Hs & Hcases).
  assert (Hnh : aligned (advance g h0)).
  { apply advance_aligned; [done |]. rewrite Hs in Hsn.
    by apply Forall_cons in Hsn as [? _]. }
  destruct Hcases as [(_ & -> & _) | [(_ & _ & -> & _) | (_ & _ & -> & _)]].
  - done.
  - split; [done |]. simpl. split; [by apply Forall_cons | apply food_of_in_grid].
  - split; [done |]. simpl. split; [| done].
    apply Forall_cons. split; [done | by apply Forall_aligned_removelast].
Qed.

Lemma step_grid_aligned (s s' : SnakeGame * World) :
  Step s s' -> grid_aligned s.1 -> grid_aligned s'.1.
Proof.
  intros [events g w | g g' w w' Ht]; simpl.
  - intros (Hd & Hsn & Hf).
    destruct (handle_input_frame events g) as (Hs' & Hf' & _ & _).
    split; [by apply handle_input_direction |]. by rewrite Hs', Hf'.
  - intros Hg. by eapply tick_grid_aligned.
Qed.

(** C7.  Over any sequence of inputs and ticks the score never decreases; a
    single tick on a non-empty snake returns, and it adds exactly 1 when the
    new head passes the collision check and equals the food position, and
    leaves the score unchanged otherwise. *)
Theorem score_never_decreases :
  (forall s s' : SnakeGame * World, rtc Step s s' -> score s.1 <= score s'.1) /\
  (forall (g : SnakeGame) (w : World) (h0 : Cell) (t : list Cell),
     snake g = h0 :: t ->
     exists g' w',
       _update_game_state g w = Some (g', w') /\
       score g' =
         if decide (_check_collision g (advance g h0) = false /\
                    advance g h0 = food_pos g)
         then score g + 1 else score g).
Proof.
  split.
  - intros s s' Hrtc. induction Hrtc as [s | s1 s2 s3 H12 _ IH]; [lia |].
    apply step_score in H12. lia.
  - intros g w h0 t Hs.
    destruct (tick_total g w h0 t Hs) as (g' & w' & Ht).
    exists g', w'. split; [done |].
    apply tick_inv in Ht as (h1 & t1 & Hs1 & Hcases).
    assert (h1 = h0) as -> by congruence.
    destruct (decide (_check_collision g (advance g h0) = false /\
                      advance g h0 = food_pos g)) as [[Hc' Hf'] | Hn];
      destruct Hcases as [(Hc & -> & _) | [(Hc & Hf & -> & _) | (Hc & Hf & -> & _)]];
      simpl; try done; try congruence; by destruct Hn.
Qed.

(** C8 (amended).  The game-over flag is never cleared: it is still set after
    any sequence of inputs and ticks.  [_update_game_state] itself has no
    guard on the flag: a tick taken in GameOver leaves the game object
    unchanged when its collision check fires again, and otherwise moves the
    snake as in Playing; not ticking after game over is left to the
    caller. *)
Theorem game_over_flag_is_never_cleared :
  (forall s s' : SnakeGame * World,
     rtc Step s s' -> game_over s.1 = true -> game_over s'.1 = true) /\
  (forall (g : SnakeGame) (w : World) (h0 : Cell) (t : list Cell),
     game_over g = true ->
     snake g = h0 :: t ->
     exists g' w',
       _update_game_state g w = Some (g', w') /\
       game_over g' = true /\
       (_check_collision g (advance g h0) = true -> g' = g)).
Proof.
  split.
  - intros s s' Hrtc. induction Hrtc as [s | s1 s2 s3 H12 _ IH]; [done |].
    intros Hgo. by apply IH, (step_game_over s1 s2).
  - intros g w h0 t Hgo Hs.
    destruct (tick_total g w h0 t Hs) as (g' & w' & Ht).
    exists g', w'. split; [done |].
    split; [by apply (step_game_over (g, w) (g', w')); [apply step_tick |] |].
    intros Hc. rewrite (tick_collide g w h0 t Hs Hc) in Ht.
    injection Ht as <- _. destruct g; simpl in *; by subst.
Qed.

(** C10.  Every state of a session, reached from [reset_game] by any inputs
    and ticks, has one of the four axis-aligned vectors [(±20, 0)],
    [(0, ±20)] as its direction, and every snake cell and the food position
    have both coordinates multiples of 20. *)
Theorem reachable_grid_aligned (s : SnakeGame * World) :
  Reachable s -> grid_aligned s.1.
Proof.
  intros (w0 & [g0 w1] & Hreset & Hrtc).
  apply reset_grid_aligned in Hreset.
  change (grid_aligned (g0, w1).1) in Hreset.
  induction Hrtc as [s | s1 s2 s3 H12 _ IH]; [done |].
  by apply IH, (step_grid_aligned s1 s2).
Qed.

End Sessions.

Abbreviation Step_pygame :=
  (Step pygame.K_UP pygame.K_DOWN pygame.K_LEFT pygame.K_RIGHT).
Abbreviation Reachable_pygame :=
  (Reachable pygame.K_UP pygame.K_DOWN pygame.K_LEFT pygame.K_RIGHT).

(** The world right after the [reset_game] that produced [fresh_game]. *)
Definition fresh_world : World := drawn 2 (world_of_draws 0 0).

Lemma reset_fresh :
  reset_game (world_of_draws 0 0) = Some (fresh_game, fresh_world).
Proof. reflexivity. Qed.

(** The fresh game after 15 ticks to the right (the last one hits the wall)
    and a press of the up key. *)
Definition crashed : SnakeGame := mkGame [(580, 200)] (0, -20) (0, 0) 0 true.

Lemma crashed_reachable : Reachable_pygame (crashed, beeped fresh_world).
Proof.
  exists (world_of_draws 0 0), (fresh_game, fresh_world).
  split; [apply reset_fresh |].
  eapply rtc_r.
  - apply (ticks_rtc _ _ _ _ 15 fresh_game
             (mkGame [(580, 200)] (20, 0) (0, 0) 0 true)
             fresh_world (beeped fresh_world)).
    by vm_compute.
  - assert (E : (handle_input_pygame [KEYDOWN pygame.K_UP]
                   (mkGame [(580, 200)] (20, 0) (0, 0) 0 true)).2 = crashed)
      by (by vm_compute).
    rewrite <- E. apply step_input.
Qed.

(** C8, as stated, fails: in a reachable GameOver state (wall hit, then the
    up key) a further tick moves the snake. *)
Lemma tick_after_game_over_moves_snake :
  Reachable_pygame (crashed, beeped fresh_world) /\
  game_over crashed = true /\
  exists g',
    _update_game_state crashed (beeped fresh_world) =
      Some (g', beeped fresh_world) /\
    snake g' = [(580, 180)] /\ snake g' <> snake crashed.
Proof.
  split; [apply crashed_reachable |]. split; [reflexivity |].
  exists (set_snake [(580, 180)] crashed).
  split; [by vm_compute |]. split; [reflexivity | discriminate].
Qed.

(** ** The scenarios of the specification *)

Example scenario_plain_move :
  _update_game_state fresh_game fresh_world =
    Some (mkGame [(320, 200)] (20, 0) (0, 0) 0 false, fresh_world).
Proof. reflexivity. Qed.

(** A snake of length 2 at the left wall, heading left. *)
Definition at_left_wall : SnakeGame :=
  mkGame [(0, 200); (20, 200)] (-20, 0) (100, 100) 1 false.

Example scenario_wall :
  advance at_left_wall (0, 200) = (-20, 200) /\
  _update_game_state at_left_wall fresh_world =
    Some (set_game_over true at_left_wall, beeped fresh_world).
Proof. split; reflexivity. Qed.

Example scenario_rejected_reversal :
  let g := mkGame [(40, 200); (20, 200); (0, 200)] (20, 0) (100, 100) 2 false in
  handle_input_pygame [KEYDOWN pygame.K_LEFT] g = (true, g) /\
  _update_game_state g fresh_world =
    Some (set_snake [(60, 200); (40, 200); (20, 200)] g, fresh_world).
Proof. split; by vm_compute. Qed.

Example scenario_eat :
  let g := mkGame [(300, 200)] (20, 0) (320, 200) 0 false in
  _update_game_state g (world_of_draws 3 4) =
    Some (mkGame [(320, 200); (300, 200)] (20, 0) (60, 80) 1 false,
          drawn 2 (world_of_draws 3 4)).
Proof. reflexivity. Qed.

(** ** A session with two meals and a turn *)

(** The random source that puts the first food at [(320, 200)], the second
    at [(340, 200)] and the third at [(0, 0)]. *)
Definition meal_world : World :=
  mkWorld (fun i => match i with
                    | 0%nat => 16 | 1%nat => 10 | 2%nat => 17 | 3%nat => 10
                    | _ => 0
                    end) 0.

(** The game object right after [reset_game] on [meal_world]. *)
Definition meal_start : SnakeGame :=
  mkGame [(300, 200)] (20, 0) (320, 200) 0 false.

(** After two ticks (each eats), a press of the up key and a third tick. *)
Definition after_meal : SnakeGame :=
  mkGame [(340, 180); (340, 200); (320, 200)] (0, -20) (0, 0) 2 false.

Definition meal_end_world : World := drawn 2 (drawn 2 (drawn 2 meal_world)).

Lemma meal_run :
  rtc Step_pygame (meal_start, drawn 2 meal_world) (after_meal, meal_end_world).
Proof.
  eapply rtc_trans.
  - apply (ticks_rtc _ _ _ _ 2 meal_start
             (mkGame [(340, 200); (320, 200); (300, 200)] (20, 0) (0, 0) 2 false)
             (drawn 2 meal_world) meal_end_world).
    by vm_compute.
  - eapply rtc_l.
    + apply (step_input _ _ _ _ [KEYDOWN pygame.K_UP]).
    + apply rtc_once, step_tick. by vm_compute.
Qed.

Lemma meal_reachable : Reachable_pygame (after_meal, meal_end_world).
Proof.
  exists meal_world, (meal_start, drawn 2 meal_world).
  split; [reflexivity | apply meal_run].
Qed.

(** ** The theorems at concrete inputs *)

Lemma self_collision_tests_whole_body_witness :
  exists g' w',
    _update_game_state tail_chase fresh_world = Some (g', w') /\
    (game_over g' = true <-> advance tail_chase (0, 0) ∈ snake tail_chase) /\
    (last (snake tail_chase) = Some (advance tail_chase (0, 0)) ->
     g' = set_game_over true tail_chase).
Proof.
  apply (self_collision_tests_whole_body tail_chase fresh_world (0, 0)
           [(20, 0); (20, 20); (0, 20)]).
  - reflexivity.
  - reflexivity.
  - unfold in_bounds, WIDTH, HEIGHT; simpl; lia.
Defined.

Lemma wall_collision_iff_out_of_bounds_witness :
  exists g' w',
    _update_game_state at_left_wall fresh_world = Some (g', w') /\
    game_over g' = true.
Proof.
  destruct (wall_collision_iff_out_of_bounds at_left_wall fresh_world (0, 200)
              [(20, 200)] eq_refl eq_refl) as (g' & w' & Ht & Hout & _).
  exists g', w'. split; [exact Ht |]. apply Hout. simpl. lia.
Defined.

Lemma tick_length_witness :
  exists g' w',
    _update_game_state fresh_game fresh_world = Some (g', w') /\
    length (snake g') = 1%nat.
Proof.
  apply (tick_length fresh_game fresh_world (300, 200) []); reflexivity.
Defined.

Lemma collision_changes_only_phase_witness :
  exists g' w',
    _update_game_state at_left_wall fresh_world = Some (g', w') /\
    snake g' = snake at_left_wall /\ food_pos g' = food_pos at_left_wall /\
    score g' = score at_left_wall /\
    direction g' = direction at_left_wall /\ game_over g' = true.
Proof.
  apply (collision_changes_only_phase at_left_wall fresh_world (0, 200)
           [(20, 200)]); reflexivity.
Defined.

Lemma spawn_food_in_grid_ignores_snake_witness :
  exists w w', _spawn_food w = Some ((300, 200), w').
Proof.
  apply (proj2 spawn_food_in_grid_ignores_snake [(300, 200)] (300, 200)).
  - apply list_elem_of_singleton. reflexivity.
  - unfold in_bounds, WIDTH, HEIGHT; simpl; lia.
  - split; simpl; [by exists 15 | by exists 10].
Defined.

Lemma growth_step_has_no_board_full_signal_witness :
  exists g',
    _update_game_state almost_full fresh_world = Some (g', drawn 2 fresh_world) /\
    snake g' = advance almost_full (20, 380) :: snake almost_full /\
    score g' = score almost_full + 1 /\
    game_over g' = game_over almost_full /\
    in_bounds (food_pos g') /\ aligned (food_pos g') /\
    (board_full (snake g') -> food_pos g' ∈ snake g').
Proof.
  apply (growth_step_has_no_board_full_signal almost_full fresh_world (20, 380)
           (tail (tail full_snake)));
    vm_compute; reflexivity.
Defined.

Lemma direction_rejected_iff_opposite_witness :
  handle_input_pygame [KEYDOWN pygame.K_UP] fresh_game =
    (true, set_direction (0, -20) fresh_game).
Proof.
  apply (direction_rejected_iff_opposite pygame.K_UP pygame.K_DOWN pygame.K_LEFT
           pygame.K_RIGHT fresh_game pygame.K_UP (0, -20)).
  - vm_compute; reflexivity.
  - discriminate.
Defined.

Lemma score_never_decreases_witness :
  score meal_start <= score after_meal /\
  exists g' w',
    _update_game_state meal_start (drawn 2 meal_world) = Some (g', w') /\
    score g' = score meal_start + 1.
Proof.
  destruct (score_never_decreases pygame.K_UP pygame.K_DOWN pygame.K_LEFT
              pygame.K_RIGHT) as [Hmono Htick].
  split.
  - apply (Hmono (meal_start, drawn 2 meal_world) (after_meal, meal_end_world)).
    apply meal_run.
  - destruct (Htick meal_start (drawn 2 meal_world) (300, 200) [] eq_refl)
      as (g' & w' & Ht & Hsc).
    exists g', w'. split; [exact Ht |]. rewrite Hsc. vm_compute. reflexivity.
Defined.

Lemma game_over_flag_is_never_cleared_witness :
  exists g' w',
    _update_game_state crashed fresh_world = Some (g', w') /\
    game_over g' = true /\
    (_check_collision crashed (advance crashed (580, 200)) = true -> g' = crashed).
Proof.
  apply (proj2 (game_over_flag_is_never_cleared pygame.K_UP pygame.K_DOWN
                  pygame.K_LEFT pygame.K_RIGHT)
           crashed fresh_world (580, 200) []); reflexivity.
Defined.

Lemma reachable_grid_aligned_witness : grid_aligned after_meal.
Proof.
  apply (reachable_grid_aligned pygame.K_UP pygame.K_DOWN pygame.K_LEFT
           pygame.K_RIGHT (after_meal, meal_end_world)).
  apply meal_reachable.
Defined.

(** * Further properties of the engine *)

(** ** The shape of the snake during a session *)

(** Consecutive cells of the snake are one step apart. *)
Fixpoint contiguous (l : list Cell) : Prop :=
  match l with
  | a :: (b :: _) as rest =>
    is_direction (a.1 - b.1, a.2 - b.2) /\ contiguous rest
  | _ => True
  end.

(** What every state of a session satisfies. *)
Definition session_inv (g : SnakeGame) : Prop :=
  grid_aligned g /\
  snake g <> [] /\
  NoDup (snake g) /\
  Forall in_bounds (snake g) /\
  in_bounds (food_pos g) /\
  contiguous (snake g) /\
  Z.of_nat (length (snake g)) = score g + 1.

Lemma Forall_removelast (P : Cell -> Prop) (l : list Cell) :
  Forall P l -> Forall P (removelast l).
Proof.
  rewrite !Forall_forall. intros Hl c Hc. by apply Hl, elem_of_removelast.
Qed.

Lemma removelast_cons_cons (a b : Cell) (l : list Cell) :
  removelast (a :: b :: l) = a :: removelast (b :: l).
Proof. reflexivity. Qed.

Lemma NoDup_removelast (l : list Cell) : NoDup l -> NoDup (removelast l).
Proof.
  induction l as [| a l IH]; [done |].
  destruct l as [| b l]; [intros _; apply NoDup_nil_2 |].
  rewrite removelast_cons_cons. intros [Ha Hl]%NoDup_cons.
  apply NoDup_cons. split; [| by apply IH].
  intros Hin. by apply Ha, elem_of_removelast.
Qed.

Lemma contiguous_removelast (l : list Cell) :
  contiguous l -> contiguous (removelast l).
Proof.
  induction l as [| a l IH]; [done |].
  destruct l as [| b l]; [done |].
  rewrite removelast_cons_cons.
  destruct l as [| c l]; [done |].
  rewrite removelast_cons_cons in *.
  intros [Hab Hrest]. split; [done | by apply IH].
Qed.

Lemma advance_step (g : SnakeGame) (h0 : Cell) :
  ((advance g h0).1 - h0.1, (advance g h0).2 - h0.2) = direction g.
Proof.
  unfold advance. destruct (direction g) as [dx dy], h0 as [x y]; simpl.
  f_equal; lia.
Qed.

Lemma contiguous_advance (g : SnakeGame) (h0 : Cell) (t : list Cell) :
  is_direction (direction g) -> contiguous (h0 :: t) ->
  contiguous (advance g h0 :: h0 :: t).
Proof.
  intros Hd Hc. split; [by rewrite advance_step | done].
Qed.

Lemma reset_session_inv (w w' : World) (g : SnakeGame) :
  reset_game w = Some (g, w') -> session_inv g.
Proof.
  intros Hr. pose proof (reset_grid_aligned w w' g Hr) as Hga.
  rewrite reset_game_eq in Hr. injection Hr as <- _.
  split; [done |]. simpl.
  split; [done |]. split; [apply NoDup_singleton |].
  split; [apply Forall_singleton; unfold in_bounds, WIDTH, HEIGHT; simpl; lia |].
  split; [apply food_of_in_grid |]. done.
Qed.

Lemma tick_session_inv (g g' : SnakeGame) (w w' : World) :
  session_inv g -> _update_game_state g w = Some (g', w') -> session_inv g'.
Proof.
  intros (Hga & Hne & Hnd & Hin & Hfood & Hcont & Hlen) Ht.
  pose proof (tick_grid_aligned g g' w w' Hga Ht) as Hga'.
  apply tick_inv in Ht as (h0 & t & Hs & Hcases).
  split; [done |].
  destruct Hcases as [(_ & -> & _) | [(Hc & _ & -> & _) | (Hc & _ & -> & _)]].
  - done.
  - apply check_collision_false in Hc as [Hnh Hfresh]. simpl.
    split; [done |]. split; [by apply NoDup_cons |].
    split; [by apply Forall_cons |]. split; [apply food_of_in_grid |].
    split.
    + rewrite Hs in *. apply contiguous_advance; [apply Hga | done].
    + rewrite Nat2Z.inj_succ. lia.
  - apply check_collision_false in Hc as [Hnh Hfresh]. simpl.
    split; [done |]. split.
    { apply NoDup_cons. split; [| by apply NoDup_removelast].
      intros Hmem. by apply Hfresh, elem_of_removelast. }
    split; [apply Forall_cons; split; [done | by apply Forall_removelast] |].
    split; [done |]. split.
    + rewrite Hs in *.
      apply (contiguous_removelast (advance g h0 :: h0 :: t)).
      apply contiguous_advance; [apply Hga | done].
    + rewrite Hs in *. rewrite length_removelast_cons.
      cbn [length] in Hlen. lia.
Qed.

Section SessionInvariants.
Variables K_UP K_DOWN K_LEFT K_RIGHT : Z.
Local Abbreviation handle_input := (_handle_input K_UP K_DOWN K_LEFT K_RIGHT).
Local Abbreviation Step' := (Step K_UP K_DOWN K_LEFT K_RIGHT).
Local Abbreviation Reachable' := (Reachable K_UP K_DOWN K_LEFT K_RIGHT).

Lemma input_session_inv (events : list Event) (g : SnakeGame) :
  session_inv g -> session_inv (handle_input events g).2.
Proof.
  intros ((Hd & Hal & Hfa) & Hrest).
  destruct (handle_input_frame K_UP K_DOWN K_LEFT K_RIGHT events g)
    as (Hs & Hf & Hsc & _).
  unfold session_inv, grid_aligned. rewrite Hs, Hf, Hsc.
  split; [| done]. split; [| done].
  by apply handle_input_direction.
Qed.

Lemma step_session_inv (s s' : SnakeGame * World) :
  Step' s s' -> session_inv s.1 -> session_inv s'.1.
Proof.
  intros [events g w | g g' w w' Ht]; simpl.
  - apply input_session_inv.
  - intros Hg. by eapply tick_session_inv.
Qed.

Lemma reachable_session_inv (s : SnakeGame * World) :
  Reachable' s -> session_inv s.1.
Proof.
  intros (w0 & [g0 w1] & Hreset & Hrtc).
  apply reset_session_inv in Hreset.
  change (session_inv (g0, w1).1) in Hreset.
  induction Hrtc as [s | s1 s2 s3 H12 _ IH]; [done |].
  by apply IH, (step_session_inv s1 s2).
Qed.

End SessionInvariants.

Lemma full_snake_length : length full_snake = 600%nat.
Proof. by vm_compute. Qed.

Lemma removelast_snoc (l : list Cell) (x : Cell) : removelast (l ++ [x]) = l.
Proof. apply removelast_last. Qed.

Lemma lookup_removelast (l : list Cell) (i : nat) :
  (S i < length l)%nat -> removelast l !! i = l !! i.
Proof.
  destruct (last l) as [x |] eqn:Hl.
  - apply last_Some in Hl as [l' ->]. rewrite removelast_snoc, length_app.
    simpl. intros Hi. rewrite lookup_app_l by lia. done.
  - apply last_None in Hl as ->. simpl. lia.
Qed.

(** ** Errors and effects of a tick *)

(** X1.  A tick raises (the [IndexError] of [self.snake[0]]) exactly when the
    snake is the empty list. *)
Theorem tick_raises_iff_empty (g : SnakeGame) (w : World) :
  _update_game_state g w = None <-> snake g = [].
Proof.
  split.
  - destruct (snake g) as [| h0 t] eqn:Hs; [done |].
    destruct (tick_total g w h0 t Hs) as (g' & w' & Ht). by rewrite Ht.
  - intros Hs. unfold _update_game_state. by rewrite Hs.
Qed.

(** X10.  A tick never changes the direction, and it leaves the food where
    it is unless the new head passes the collision check and is the food
    position. *)
Theorem tick_keeps_direction_and_food
    (g g' : SnakeGame) (w w' : World) (h0 : Cell) (t : list Cell) :
  snake g = h0 :: t ->
  _update_game_state g w = Some (g', w') ->
  direction g' = direction g /\
  (_check_collision g (advance g h0) = true \/ advance g h0 <> food_pos g ->
   food_pos g' = food_pos g).
Proof.
  intros Hs Ht. apply tick_inv in Ht as (h1 & t1 & Hs1 & Hcases).
  assert (h1 = h0) as -> by congruence.
  destruct Hcases as [(Hc & -> & _) | [(Hc & Hf & -> & _) | (Hc & Hf & -> & _)]];
    (split; [done |]); intros [Hc' | Hf']; try congruence; done.
Qed.

(** X11.  A tick on a non-empty snake returns; it beeps exactly when its
    collision check fires, and it consumes two draws of the random source
    exactly when the food is eaten, none otherwise. *)
Theorem tick_effects
    (g : SnakeGame) (w : World) (h0 : Cell) (t : list Cell) :
  snake g = h0 :: t ->
  let hit := _check_collision g (advance g h0) in
  let eaten := negb hit && bool_decide (advance g h0 = food_pos g) in
  exists g' w',
    _update_game_state g w = Some (g', w') /\
    beeps w' = (if hit then S (beeps w) else beeps w) /\
    forall i : nat, rng w' i = rng w ((if eaten then 2 else 0) + i)%nat.
Proof.
  intros Hs hit eaten. subst hit eaten.
  destruct (tick_total g w h0 t Hs) as (g' & w' & Ht).
  exists g', w'. split; [done |].
  apply tick_inv in Ht as (h1 & t1 & Hs1 & Hcases).
  assert (h1 = h0) as -> by congruence.
  destruct Hcases as [(Hc & -> & ->) | [(Hc & Hf & -> & ->) | (Hc & Hf & -> & ->)]];
    rewrite Hc; simpl.
  - done.
  - by rewrite bool_decide_eq_true_2.
  - by rewrite bool_decide_eq_false_2.
Qed.

(** X17.  A tick without collision returns, and the body follows the head:
    the new head is the old head moved by the direction, and every later
    cell of the new snake is the cell that preceded it in the old snake. *)
Theorem tick_body_follows_head
    (g : SnakeGame) (w : World) (h0 : Cell) (t : list Cell) :
  snake g = h0 :: t ->
  _check_collision g (advance g h0) = false ->
  exists g' w',
    _update_game_state g w = Some (g', w') /\
    snake g' !! 0%nat = Some (advance g h0) /\
    forall i : nat, (S i < length (snake g'))%nat ->
      snake g' !! S i = snake g !! i.
Proof.
  intros Hs Hc.
  destruct (tick_total g w h0 t Hs) as (g' & w' & Ht).
  exists g', w'. split; [done |].
  apply tick_inv in Ht as (h1 & t1 & Hs1 & Hcases).
  assert (h1 = h0) as -> by congruence.
  destruct Hcases as [(Hc' & _) | [(_ & Hf & -> & _) | (_ & Hf & -> & _)]];
    [congruence | |]; simpl.
  - done.
  - split; [done |]. intros i Hi. apply lookup_removelast.
    rewrite Hs in *. rewrite length_removelast_cons in Hi. simpl. lia.
Qed.

(** X9.  A tick without collision and without food returns, and the cell of
    the old tail is vacated: the cells of the new snake are the new head and
    the old cells but the tail.  (The cells of the old snake are pairwise
    distinct, as they are during a session.) *)
Theorem tick_vacates_tail
    (g : SnakeGame) (w : World) (h0 tl : Cell) (t : list Cell) :
  NoDup (snake g) ->
  snake g = h0 :: t ->
  last (snake g) = Some tl ->
  _check_collision g (advance g h0) = false ->
  advance g h0 <> food_pos g ->
  exists g',
    _update_game_state g w = Some (g', w) /\
    (tl ∉ snake g') /\
    forall c : Cell,
      c ∈ snake g' <-> c = advance g h0 \/ (c ∈ snake g /\ c <> tl).
Proof.
  intros Hnd Hs Hl Hc Hf.
  eexists. split; [by apply (tick_move g w h0 t Hs Hc Hf) |].
  apply check_collision_false in Hc as [_ Hfresh].
  apply last_Some in Hl as [l' Hl']. simpl. rewrite Hl' in *.
  rewrite removelast_snoc.
  apply NoDup_app in Hnd as (_ & Hdisj & _).
  assert (Htl : tl ∉ l').
  { intros Hin. apply (Hdisj tl Hin). by apply list_elem_of_singleton. }
  assert (Hne : tl <> advance g h0).
  { intros ->. apply Hfresh, elem_of_app. right.
    by apply list_elem_of_singleton. }
  split.
  - rewrite elem_of_cons. tauto.
  - intros c. rewrite elem_of_cons, elem_of_app, list_elem_of_singleton.
    split; [| tauto].
    intros [-> | Hin]; [by left | right].
    split; [by left | by intros ->].
Qed.

(** X8.  When the snake covers the whole grid, the next tick ends in game
    over whatever the direction: the new head is either outside the grid or
    a cell of the snake. *)
Theorem full_board_tick_is_game_over
    (g : SnakeGame) (w : World) (h0 : Cell) (t : list Cell) :
  is_direction (direction g) ->
  aligned h0 ->
  snake g = h0 :: t ->
  board_full (snake g) ->
  _update_game_state g w = Some (set_game_over true g, beeped w).
Proof.
  intros Hd Hal Hs Hfull. apply (tick_collide g w h0 t Hs).
  apply check_collision_true.
  destruct (decide (0 <= (advance g h0).1 < WIDTH /\
                    0 <= (advance g h0).2 < HEIGHT)) as [Hin | Hout].
  - right. apply Hfull; [done | by apply advance_aligned].
  - by left.
Qed.

Lemma ticks_S (n : nat) (g : SnakeGame) (w : World) :
  ticks (S n) g w =
    match _update_game_state g w with
    | Some (g1, w1) => ticks n g1 w1
    | None => None
    end.
Proof. reflexivity. Qed.

(** X12.  [n] ticks raise the score by at most [n] and never lower it, and
    they lengthen the snake by at most [n] cells and never shorten it. *)
Theorem ticks_score_and_length_bounds
    (n : nat) (g g' : SnakeGame) (w w' : World) :
  ticks n g w = Some (g', w') ->
  score g <= score g' <= score g + Z.of_nat n /\
  (length (snake g) <= length (snake g') <= length (snake g) + n)%nat.
Proof.
  revert g w. induction n as [| n IH]; intros g w; simpl.
  - intros [= -> ->]. lia.
  - unfold mbind, M_bind.
    destruct (_update_game_state g w) as [[g1 w1] |] eqn:Ht; [| done].
    intros Hn. apply IH in Hn.
    apply tick_inv in Ht as (h0 & t & Hs & Hcases).
    destruct Hcases as [(_ & -> & _) | [(_ & _ & -> & _) | (_ & _ & -> & _)]];
      simpl in Hn; [lia | lia |].
    rewrite Hs, length_removelast_cons in Hn. rewrite Hs. simpl. lia.
Qed.

(** X13.  Once the collision check of a tick fires, further ticks without
    input leave the game object in the same game-over state, and each of
    them beeps again. *)
Theorem ticks_after_collision
    (n : nat) (g : SnakeGame) (w : World) (h0 : Cell) (t : list Cell) :
  snake g = h0 :: t ->
  _check_collision g (advance g h0) = true ->
  ticks (S n) g w =
    Some (set_game_over true g, mkWorld (rng w) (S n + beeps w)).
Proof.
  revert g w. induction n as [| n IH]; intros g w Hs Hc.
  - rewrite ticks_S, (tick_collide g w h0 t Hs Hc). done.
  - rewrite ticks_S, (tick_collide g w h0 t Hs Hc).
    rewrite (IH (set_game_over true g) (beeped w) Hs Hc). simpl.
    do 3 f_equal. lia.
Qed.

(** ** Invariants of a session and properties of the input handling *)

Section SessionProperties.
Variables K_UP K_DOWN K_LEFT K_RIGHT : Z.
Local Abbreviation key_to_direction :=
  (_key_to_direction K_UP K_DOWN K_LEFT K_RIGHT).
Local Abbreviation handle_input := (_handle_input K_UP K_DOWN K_LEFT K_RIGHT).
Local Abbreviation Reachable' := (Reachable K_UP K_DOWN K_LEFT K_RIGHT).

(** X2.  In a session the snake is never empty, so a tick never raises,
    whatever the random source. *)
Theorem session_tick_never_raises (g : SnakeGame) (w w1 : World) :
  Reachable' (g, w) ->
  snake g <> [] /\ exists g' w', _update_game_state g w1 = Some (g', w').
Proof.
  intros (_ & Hne & _)%reachable_session_inv. simpl in Hne.
  split; [done |]. destruct (snake g) as [| h0 t] eqn:Hs; [done |].
  by apply (tick_total g w1 h0 t).
Qed.

(** X3.  In a session the length of the snake is always the score plus one;
    in particular the score is never negative. *)
Theorem session_length_is_score_plus_one (s : SnakeGame * World) :
  Reachable' s ->
  Z.of_nat (length (snake s.1)) = score s.1 + 1 /\ 0 <= score s.1.
Proof.
  intros (_ & Hne & _ & _ & _ & _ & Hlen)%reachable_session_inv.
  split; [done |]. destruct (snake s.1); [done |]. simpl length in Hlen. lia.
Qed.

(** X4.  In a session every cell of the snake and the food position lie
    inside [[0, 600) × [0, 400)], also after game over. *)
Theorem session_cells_in_bounds (s : SnakeGame * World) :
  Reachable' s ->
  Forall in_bounds (snake s.1) /\ in_bounds (food_pos s.1).
Proof.
  by intros (_ & _ & _ & Hin & Hfood & _)%reachable_session_inv.
Qed.

(** X5.  In a session the snake never overlaps itself: its cells are
    pairwise distinct. *)
Theorem session_snake_cells_distinct (s : SnakeGame * World) :
  Reachable' s -> NoDup (snake s.1).
Proof.
  by intros (_ & _ & Hnd & _)%reachable_session_inv.
Qed.

(** X6.  In a session the snake is connected: each cell is one step
    ([(±20, 0)] or [(0, ±20)]) away from the next one. *)
Theorem session_snake_contiguous (s : SnakeGame * World) :
  Reachable' s -> contiguous (snake s.1).
Proof.
  by intros (_ & _ & _ & _ & _ & Hc & _)%reachable_session_inv.
Qed.

(** X7.  In a session the snake never has more than 600 cells (the 30 × 20
    cells of the grid), so the score never exceeds 599. *)
Theorem session_length_at_most_grid (s : SnakeGame * World) :
  Reachable' s ->
  (length (snake s.1) <= 600)%nat /\ score s.1 <= 599.
Proof.
  intros ((_ & Hal & _) & _ & Hnd & Hin & _ & _ & Hlen)%reachable_session_inv.
  assert (Hle : (length (snake s.1) <= 600)%nat).
  { rewrite <- full_snake_length. apply submseteq_length.
    apply NoDup_submseteq; [done |]. intros c Hc.
    rewrite Forall_forall in Hal, Hin.
    apply full_snake_board_full; auto. }
  split; [done | lia].
Qed.

(** X14.  [_handle_input] returns [False] exactly when the events of the
    frame contain a [QUIT]. *)
Theorem handle_input_false_iff_quit (events : list Event) (g : SnakeGame) :
  (handle_input events g).1 = false <-> QUIT ∈ events.
Proof.
  revert g. induction events as [| e events IH]; intros g.
  - simpl. split; [done | by intros ?%elem_of_nil].
  - rewrite elem_of_cons. destruct e as [| key |]; simpl.
    + split; [by left | done].
    + destruct (key_to_direction key) as [d |];
        [destruct (_is_valid_direction g d) |];
        rewrite IH; split; [by right | by intros [? | ?] | by right
                           | by intros [? | ?] | by right | by intros [? | ?]].
    + rewrite IH. split; [by right | by intros [? | ?]].
Qed.

(** X15.  Handling the events [a ++ b] is handling [a] and then, unless [a]
    contains a [QUIT], handling [b]: the events after a [QUIT] are never
    looked at, the direction changes made before it are kept. *)
Theorem handle_input_app (a b : list Event) (g : SnakeGame) :
  handle_input (a ++ b) g =
    if (handle_input a g).1 then handle_input b (handle_input a g).2
    else (false, (handle_input a g).2).
Proof.
  revert g. induction a as [| e a IH]; intros g; [done |].
  destruct e as [| key |]; simpl; [done | | apply IH].
  destruct (key_to_direction key) as [d |]; [| apply IH].
  destruct (_is_valid_direction g d); apply IH.
Qed.

(** X19.  [_handle_input] only ever writes the direction: snake, food, score
    and game-over flag are untouched, and the direction it leaves is the old
    one or the direction mapped to one of the keys pressed. *)
Theorem handle_input_changes_only_direction
    (events : list Event) (g : SnakeGame) :
  let g' := (handle_input events g).2 in
  snake g' = snake g /\ food_pos g' = food_pos g /\
  score g' = score g /\ game_over g' = game_over g /\
  (direction g' = direction g \/
   exists key, KEYDOWN key ∈ events /\
               key_to_direction key = Some (direction g')).
Proof.
  intros g'. subst g'.
  destruct (handle_input_frame K_UP K_DOWN K_LEFT K_RIGHT events g)
    as (Hs & Hf & Hsc & Hgo).
  do 4 (split; [done |]). clear.
  revert g. induction events as [| e events IH]; intros g; [by left |].
  assert (Hrec : forall g1 : SnakeGame,
            direction g1 = direction g \/
            key_to_direction
              match e with KEYDOWN k => k | _ => 0 end = Some (direction g1) /\
            (exists k, e = KEYDOWN k) ->
            direction (handle_input events g1).2 = direction g \/
            exists key, KEYDOWN key ∈ e :: events /\
              key_to_direction key = Some (direction (handle_input events g1).2)).
  { intros g1 Hg1. destruct (IH g1) as [Heq | (key & Hin & Hk)].
    - rewrite Heq. destruct Hg1 as [-> | (Hk & k & ->)]; [by left | right].
      exists k. split; [by left | done].
    - right. exists key. split; [by right | done]. }
  destruct e as [| key |]; simpl; [by left | | apply Hrec; by left].
  destruct (key_to_direction key) as [d |] eqn:Hk; [| apply Hrec; by left].
  destruct (_is_valid_direction g d); [| apply Hrec; by left].
  apply Hrec. right. simpl. eauto.
Qed.

Lemma key_to_direction_lookup :
  NoDup [K_UP; K_DOWN; K_LEFT; K_RIGHT] ->
  key_to_direction K_UP = Some (0, -20) /\
  key_to_direction K_DOWN = Some (0, 20) /\
  key_to_direction K_LEFT = Some (-20, 0) /\
  key_to_direction K_RIGHT = Some (20, 0) /\
  forall key, key ∉ [K_UP; K_DOWN; K_LEFT; K_RIGHT] ->
              key_to_direction key = None.
Proof.
  intros Hnd. unfold _key_to_direction, key_map, BLOCK_SIZE.
  repeat (apply NoDup_cons in Hnd as [? Hnd]).
  repeat split; try intros key Hkey;
    rewrite !lookup_insert, ?lookup_empty; repeat case_decide; subst;
    try done; set_solver.
Qed.

(** X18.  The reversal guard only compares with the direction at the time of
    the key press: two key presses within one frame (a turn, then the
    opposite of the original direction) reverse the snake between two
    ticks, whatever its length. *)
Theorem two_keys_reverse_in_one_frame (g : SnakeGame) :
  NoDup [K_UP; K_DOWN; K_LEFT; K_RIGHT] ->
  is_direction (direction g) ->
  exists k1 k2,
    handle_input [KEYDOWN k1; KEYDOWN k2] g =
      (true, set_direction (opposite (direction g)) g).
Proof.
  intros (Hu & Hd & Hl & Hr & _)%key_to_direction_lookup Hdir.
  unfold is_direction, BLOCK_SIZE in Hdir. destruct g as [sn dir f sc go].
  simpl in Hdir.
  destruct Hdir as [-> | [-> | [-> | ->]]].
  - exists K_UP, K_LEFT. simpl. by rewrite Hu, Hl.
  - exists K_UP, K_RIGHT. simpl. by rewrite Hu, Hr.
  - exists K_LEFT, K_UP. simpl. by rewrite Hl, Hu.
  - exists K_LEFT, K_DOWN. simpl. by rewrite Hl, Hd.
Qed.

End SessionProperties.

Section Reversal.
Variables K_UP K_DOWN K_LEFT K_RIGHT : Z.
Local Abbreviation handle_input := (_handle_input K_UP K_DOWN K_LEFT K_RIGHT).

(** X20.  A snake of at least two cells whose head has just moved in the
    current direction is killed by such a reversal: after the two key
    presses the next tick puts the new head on the second cell and ends in
    game over. *)
Theorem reversal_in_one_frame_is_fatal
    (g : SnakeGame) (w : World) (h0 h1 : Cell) (t : list Cell) :
  NoDup [K_UP; K_DOWN; K_LEFT; K_RIGHT] ->
  is_direction (direction g) ->
  snake g = h0 :: h1 :: t ->
  (h0.1 - h1.1, h0.2 - h1.2) = direction g ->
  exists k1 k2 g1,
    handle_input [KEYDOWN k1; KEYDOWN k2] g = (true, g1) /\
    advance g1 h0 = h1 /\
    _update_game_state g1 w = Some (set_game_over true g1, beeped w).
Proof.
  intros (Hu & Hd & Hl & Hr & _)%key_to_direction_lookup Hdir Hs Hstep.
  assert (Hback : advance (set_direction (opposite (direction g)) g) h0 = h1).
  { unfold advance, opposite. simpl. rewrite <- Hstep.
    destruct h0, h1; simpl. f_equal; lia. }
  assert (Htick : _update_game_state (set_direction (opposite (direction g)) g) w
                  = Some (set_game_over true
                            (set_direction (opposite (direction g)) g), beeped w)).
  { apply (tick_collide _ w h0 (h1 :: t)); [done |].
    apply check_collision_true. right. rewrite Hback. simpl. rewrite Hs.
    apply elem_of_cons. right. by left. }
  clear Hstep.
  unfold is_direction, BLOCK_SIZE in Hdir.
  destruct g as [sn dir f sc go]; simpl in *.
  destruct Hdir as [-> | [-> | [-> | ->]]].
  - exists K_UP, K_LEFT. eexists. simpl. rewrite Hu, Hl. simpl. done.
  - exists K_UP, K_RIGHT. eexists. simpl. rewrite Hu, Hr. simpl. done.
  - exists K_LEFT, K_UP. eexists. simpl. rewrite Hl, Hu. simpl. done.
  - exists K_LEFT, K_DOWN. eexists. simpl. rewrite Hl, Hd. simpl. done.
Qed.
End Reversal.

(** * The console prompts ([get_player_name], [select_difficulty]) *)

(** A Python [str] is the sequence of its code points. *)
Abbreviation str := (list N).

(** [class Difficulty(IntEnum)] and the value of each member, the frame
    rate. *)
Inductive Difficulty : Type := SLOW | MEDIUM | FAST.

Definition Difficulty_value (d : Difficulty) : Z :=
  match d with SLOW => 7 | MEDIUM => 15 | FAST => 25 end.

(** [GameConfig.MAX_NAME_LENGTH] *)
Definition MAX_NAME_LENGTH : nat := 20.

(** What the prompts write: one constructor per message and per [input]
    prompt of the source; [NameBanner] and [DifficultyMenu] stand for the
    block of [print]s before each loop. *)
Inductive Line : Type :=
| NameBanner
| NamePrompt
| NameEmpty
| NameTooLong
| Welcome (name : str)
| DifficultyMenu
| DifficultyPrompt
| InvalidChoice.

(** The exceptions the prompts raise: [input] at the end of the input, and
    [print] of a text that standard output cannot encode. *)
Inductive PromptError : Type := EOFError | UnicodeEncodeError.

Section Console.
(** [str.isspace] on one code point, a function of the Python runtime. *)
Variable isspace : N -> bool.

(** Whether standard output can encode the text of a line.  It is asked for
    the lines with non-ASCII text only: the banner, the two error messages
    of [get_player_name] and its welcome (which also holds the name). *)
Variable encodable : Line -> bool.

(** [print] of such a line: written, or [UnicodeEncodeError]. *)
Definition print (l : Line) (out : list Line) : PromptError + list Line :=
  if encodable l then inr (out ++ [l]) else inl UnicodeEncodeError.

Fixpoint lstrip (s : str) : str :=
  match s with
  | [] => []
  | c :: s' => if isspace c then lstrip s' else s
  end.

(** [str.strip()]: leading and trailing white space removed. *)
Definition strip (s : str) : str := reverse (lstrip (reverse (lstrip s))).

(** The loop of [get_player_name].  [stdin] holds the lines still to be read
    by [input], [out] what has been written; [input] raises [EOFError] when
    no line is left, and each [print] of a non-ASCII text raises
    [UnicodeEncodeError] when standard output cannot encode it. *)
Fixpoint get_player_name_loop (stdin : list str) (out : list Line)
  : PromptError + (str * list str * list Line) :=
  match stdin with
  | [] => inl EOFError
  | raw :: stdin' =>
    let out := out ++ [NamePrompt] in
    let name := strip raw in
    match name with
    | [] =>
      match print NameEmpty out with
      | inl e => inl e
      | inr out => get_player_name_loop stdin' out
      end
    | _ :: _ =>
      if bool_decide (MAX_NAME_LENGTH < length name)%nat
      then
        match print NameTooLong out with
        | inl e => inl e
        | inr out => get_player_name_loop stdin' out
        end
      else
        match print (Welcome name) out with
        | inl e => inl e
        | inr out => inr (name, stdin', out)
        end
    end
  end.

(** [get_player_name]: the banner, then the loop. *)
Definition get_player_name (stdin : list str)
  : PromptError + (str * list str * list Line) :=
  match print NameBanner [] with
  | inl e => inl e
  | inr out => get_player_name_loop stdin out
  end.

(** The dictionary [difficulty_map] with the keys ["1"], ["2"], ["3"]. *)
Definition difficulty_map : gmap str Difficulty :=
  <[ [51%N] := FAST ]> (<[ [50%N] := MEDIUM ]> (<[ [49%N] := SLOW ]> ∅)).

(** The loop of [select_difficulty]. *)
Fixpoint select_difficulty_loop (stdin : list str) (out : list Line)
  : option (Difficulty * list str * list Line) :=
  match stdin with
  | [] => None
  | raw :: stdin' =>
    let out := out ++ [DifficultyPrompt] in
    let choice := strip raw in
    match difficulty_map !! choice with
    | Some d => Some (d, stdin', out)
    | None => select_difficulty_loop stdin' (out ++ [InvalidChoice])
    end
  end.

Definition select_difficulty (stdin : list str)
  : option (Difficulty * list str * list Line) :=
  select_difficulty_loop stdin [DifficultyMenu].

(** A name the loop of [get_player_name] accepts. *)
Definition valid_name (name : str) : Prop :=
  name <> [] /\ (length name <= MAX_NAME_LENGTH)%nat.

(** The error message written for a rejected line. *)
Definition rejection_line (raw : str) : Line :=
  match strip raw with [] => NameEmpty | _ => NameTooLong end.

(** What is written for a rejected line. *)
Definition name_rejection (raw : str) : list Line :=
  [NamePrompt; rejection_line raw].

(** A line the loop of [get_player_name] rejects and goes on from. *)
Definition rejected (raw : str) : Prop :=
  ~ valid_name (strip raw) /\ encodable (rejection_line raw) = true.

Lemma lstrip_head (s : str) (c : N) (s' : str) :
  lstrip s = c :: s' -> isspace c = false.
Proof.
  induction s as [| a s IH]; [done |]. simpl.
  destruct (isspace a) eqn:Ha; [done |]. by intros [= <- _].
Qed.

Lemma lstrip_suffix (s : str) : lstrip s `suffix_of` s.
Proof.
  induction s as [| a s IH]; [done |]. simpl.
  destruct (isspace a); [by apply suffix_cons_r | done].
Qed.

Lemma lstrip_last (s : str) (c : N) :
  last (lstrip s) = Some c -> last s = Some c.
Proof.
  destruct (lstrip_suffix s) as [k Hk]. intros Hl.
  rewrite Hk. rewrite last_app, Hl. done.
Qed.

Lemma strip_ends (s : str) :
  (forall c s', strip s = c :: s' -> isspace c = false) /\
  (forall c, last (strip s) = Some c -> isspace c = false).
Proof.
  unfold strip. split.
  - intros c s' Hs.
    assert (Hl : last (lstrip (reverse (lstrip s))) = Some c).
    { rewrite <- (reverse_involutive (lstrip _)), Hs, reverse_cons.
      apply last_snoc. }
    apply lstrip_last in Hl. rewrite last_reverse in Hl.
    destruct (lstrip s) as [| a l] eqn:Hls; [done |].
    simpl in Hl. injection Hl as <-. by eapply lstrip_head.
  - intros c Hl. rewrite last_reverse in Hl.
    destruct (lstrip (reverse (lstrip s))) as [| a l] eqn:Hls; [done |].
    simpl in Hl. injection Hl as <-. by eapply lstrip_head.
Qed.

Lemma get_player_name_loop_step (r : str) (stdin : list str) (out : list Line) :
  get_player_name_loop (r :: stdin) out =
    if decide (valid_name (strip r))
    then if encodable (Welcome (strip r))
         then inr (strip r, stdin, out ++ [NamePrompt; Welcome (strip r)])
         else inl UnicodeEncodeError
    else if encodable (rejection_line r)
         then get_player_name_loop stdin (out ++ name_rejection r)
         else inl UnicodeEncodeError.
Proof.
  simpl. unfold print, name_rejection, rejection_line, valid_name.
  rewrite <- !(assoc_L (++)). simpl.
  destruct (strip r) as [| c s] eqn:Hs.
  - rewrite decide_False by (by intros [? _]).
    by destruct (encodable NameEmpty).
  - case_bool_decide as Hlen.
    + rewrite decide_False by (intros [_ ?]; lia).
      by destruct (encodable NameTooLong).
    + rewrite decide_True by (split; [done | lia]).
      by destruct (encodable (Welcome (c :: s))).
Qed.

Lemma get_player_name_loop_spec
    (stdin rest : list str) (out out' : list Line) (name : str) :
  get_player_name_loop stdin out = inr (name, rest, out') <->
  exists pre raw,
    stdin = pre ++ raw :: rest /\
    Forall rejected pre /\
    name = strip raw /\ valid_name name /\ encodable (Welcome name) = true /\
    out' = out ++ (pre ≫= name_rejection) ++ [NamePrompt; Welcome name].
Proof.
  revert out. induction stdin as [| r stdin IH]; intros out.
  { split; [done | intros (pre & raw & Heq & _)]. by destruct pre. }
  rewrite get_player_name_loop_step.
  destruct (decide (valid_name (strip r))) as [Hv | Hv].
  - destruct (encodable (Welcome (strip r))) eqn:He; split.
    + intros [= <- <- <-]. exists [], r. by rewrite He.
    + intros (pre & raw & Heq & Hpre & -> & _ & _ & ->).
      destruct pre as [| r' pre]; simpl in Heq.
      * by injection Heq as -> ->.
      * injection Heq as <- ->. apply Forall_cons in Hpre as [[Hbad _] _].
        by destruct Hbad.
    + done.
    + intros (pre & raw & Heq & Hpre & -> & _ & He' & _).
      destruct pre as [| r' pre]; simpl in Heq.
      * injection Heq as -> ->. congruence.
      * injection Heq as <- ->. apply Forall_cons in Hpre as [[Hbad _] _].
        by destruct Hbad.
  - destruct (encodable (rejection_line r)) eqn:He.
    + rewrite IH. split.
      * intros (pre & raw & -> & Hpre & -> & Hval & Hw & ->).
        exists (r :: pre), raw. split; [done |].
        split; [by constructor |]. do 3 (split; [done |]).
        change ((r :: pre) ≫= name_rejection)
          with (name_rejection r ++ (pre ≫= name_rejection)).
        by rewrite <- !(assoc_L (++)).
      * intros (pre & raw & Heq & Hpre & -> & Hval & Hw & ->).
        destruct pre as [| r' pre]; simpl in Heq.
        -- injection Heq as -> ->. done.
        -- injection Heq as <- ->. apply Forall_cons in Hpre as [_ Hpre].
           exists pre, raw. do 5 (split; [done |]).
           change ((r :: pre) ≫= name_rejection)
             with (name_rejection r ++ (pre ≫= name_rejection)).
           by rewrite <- !(assoc_L (++)).
    + split; [done |].
      intros (pre & raw & Heq & Hpre & -> & Hval & _).
      destruct pre as [| r' pre]; simpl in Heq.
      * injection Heq as -> ->. done.
      * injection Heq as <- ->. apply Forall_cons in Hpre as [[_ He'] _].
        congruence.
Qed.

Lemma get_player_name_loop_eof (stdin : list str) (out : list Line) :
  get_player_name_loop stdin out = inl EOFError <-> Forall rejected stdin.
Proof.
  revert out. induction stdin as [| r stdin IH]; intros out; [done |].
  rewrite get_player_name_loop_step, Forall_cons. unfold rejected at 1.
  destruct (decide (valid_name (strip r))) as [Hv | Hv].
  - destruct (encodable (Welcome (strip r))); split; try done; tauto.
  - destruct (encodable (rejection_line r)).
    + rewrite IH. tauto.
    + split; [done | intros [[_ ?] _]; done].
Qed.

End Console.

(** The white-space code points of CPython's [str.isspace], for concrete
    runs. *)
Definition py_isspace (c : N) : bool :=
  bool_decide (c ∈ [9; 10; 11; 12; 13; 28; 29; 30; 31; 32; 133; 160; 5760;
                    8192; 8193; 8194; 8195; 8196; 8197; 8198; 8199; 8200;
                    8201; 8202; 8232; 8233; 8239; 8287; 12288]%N).

Section ConsoleProperties.
Variable isspace : N -> bool.
Variable encodable : Line -> bool.
Local Abbreviation strip' := (strip isspace).
Local Abbreviation rejected' := (rejected isspace encodable).

(** X21.  [get_player_name] returns exactly when standard output can encode
    the banner, some line is non-empty and at most 20 code points long after
    stripping, every line before the first such one is answered by an error
    message that can be encoded, and so can the welcome.  It then returns
    that stripped line; the lines before it are consumed, the lines after it
    are left unread. *)
Theorem get_player_name_first_valid_line
    (stdin rest : list str) (out : list Line) (name : str) :
  get_player_name isspace encodable stdin = inr (name, rest, out) <->
  encodable NameBanner = true /\
  exists pre raw,
    stdin = pre ++ raw :: rest /\
    Forall rejected' pre /\
    name = strip' raw /\ valid_name name /\ encodable (Welcome name) = true /\
    out = NameBanner :: (pre ≫= name_rejection isspace)
            ++ [NamePrompt; Welcome name].
Proof.
  unfold get_player_name, print.
  destruct (encodable NameBanner); [| split; [done | by intros [? _]]].
  rewrite get_player_name_loop_spec. simpl. split; [by split | by intros [_ ?]].
Qed.

(** X22.  The name returned by [get_player_name] is never empty, has at most
    20 code points, and neither starts nor ends with white space. *)
Theorem get_player_name_result
    (stdin rest : list str) (out : list Line) (name : str) :
  get_player_name isspace encodable stdin = inr (name, rest, out) ->
  (1 <= length name <= 20)%nat /\
  (forall c, head name = Some c -> isspace c = false) /\
  (forall c, last name = Some c -> isspace c = false).
Proof.
  unfold get_player_name, print. destruct (encodable NameBanner); [| done].
  intros (pre & raw & _ & _ & -> & [Hne Hlen] & _)%get_player_name_loop_spec.
  destruct (strip_ends isspace raw) as [Hhead Hlast].
  split.
  - unfold MAX_NAME_LENGTH in Hlen. destruct (strip' raw); [done |].
    simpl in *. lia.
  - split; [| done]. intros c Hc.
    destruct (strip' raw) as [| a l] eqn:Hs; [done |].
    injection Hc as ->. by eapply Hhead.
Qed.

(** X23.  [get_player_name] raises the [EOFError] of [input] exactly when
    standard output can encode the banner and every line of the input is
    rejected: not a valid name after stripping, and answered by an error
    message that can be encoded. *)
Theorem get_player_name_eof (stdin : list str) :
  get_player_name isspace encodable stdin = inl EOFError <->
  encodable NameBanner = true /\ Forall rejected' stdin.
Proof.
  unfold get_player_name, print.
  destruct (encodable NameBanner); [| split; [done | by intros [? _]]].
  rewrite get_player_name_loop_eof. split; [by split | by intros [_ ?]].
Qed.

(** X25.  [get_player_name] raises [UnicodeEncodeError] before reading any
    line when standard output cannot encode the banner; otherwise it reads
    lines until the first one that is a valid name or whose answer cannot be
    encoded, and raises [UnicodeEncodeError] exactly when the answer to that
    line (error message or welcome) cannot be encoded. *)
Theorem get_player_name_encode_error (stdin : list str) :
  get_player_name isspace encodable stdin = inl UnicodeEncodeError <->
  encodable NameBanner = false \/
  exists pre raw post,
    stdin = pre ++ raw :: post /\
    Forall rejected' pre /\
    encodable (if decide (valid_name (strip' raw))
               then Welcome (strip' raw)
               else rejection_line isspace raw) = false.
Proof.
  unfold get_player_name, print.
  destruct (encodable NameBanner); [| split; [by left | done]].
  generalize ([] ++ [NameBanner]). intros out.
  transitivity (exists pre raw post,
    stdin = pre ++ raw :: post /\
    Forall rejected' pre /\
    encodable (if decide (valid_name (strip' raw))
               then Welcome (strip' raw)
               else rejection_line isspace raw) = false);
    [| split; [by right | by intros [? | ?]]].
  revert out. induction stdin as [| r stdin IH]; intros out.
  { split; [done | intros (pre & raw & post & Heq & _)]. by destruct pre. }
  rewrite get_player_name_loop_step.
  destruct (decide (valid_name (strip' r))) as [Hv | Hv].
  - destruct (encodable (Welcome (strip' r))) eqn:He; split.
    + done.
    + intros (pre & raw & post & Heq & Hpre & Hbad).
      destruct pre as [| r' pre]; simpl in Heq.
      * injection Heq as -> ->. rewrite decide_True in Hbad by done. congruence.
      * injection Heq as <- ->. apply Forall_cons in Hpre as [[Hn _] _].
        by destruct Hn.
    + intros _. exists [], r, stdin. split; [done |]. split; [done |].
      by rewrite decide_True.
    + done.
  - destruct (encodable (rejection_line isspace r)) eqn:He.
    + rewrite IH. split.
      * intros (pre & raw & post & -> & Hpre & Hbad).
        exists (r :: pre), raw, post. split; [done |].
        split; [by constructor |]. done.
      * intros (pre & raw & post & Heq & Hpre & Hbad).
        destruct pre as [| r' pre]; simpl in Heq.
        -- injection Heq as -> ->. rewrite decide_False in Hbad by done.
           congruence.
        -- injection Heq as <- ->. apply Forall_cons in Hpre as [_ Hpre].
           by exists pre, raw, post.
    + split; [| done]. intros _. exists [], r, stdin.
      split; [done |]. split; [done |]. by rewrite decide_False.
Qed.

Lemma difficulty_map_lookup (c : str) (d : Difficulty) :
  difficulty_map !! c = Some d <->
  (c = [49%N] /\ d = SLOW) \/ (c = [50%N] /\ d = MEDIUM) \/
  (c = [51%N] /\ d = FAST).
Proof.
  unfold difficulty_map. rewrite !lookup_insert, lookup_empty.
  repeat case_decide; subst; split; try intros [= <-]; try tauto;
    intros [[? ?] | [[? ?] | [? ?]]]; congruence.
Qed.

Lemma select_difficulty_loop_spec
    (stdin rest : list str) (out0 out : list Line) (d : Difficulty) :
  select_difficulty_loop isspace stdin out0 = Some (d, rest, out) <->
  exists pre raw,
    stdin = pre ++ raw :: rest /\
    Forall (fun r => strip' r ∉ [[49]; [50]; [51]]%N) pre /\
    ((strip' raw = [49%N] /\ d = SLOW) \/ (strip' raw = [50%N] /\ d = MEDIUM) \/
     (strip' raw = [51%N] /\ d = FAST)) /\
    out = out0 ++ (pre ≫= fun _ => [DifficultyPrompt; InvalidChoice])
            ++ [DifficultyPrompt].
Proof.
  revert out0. induction stdin as [| r stdin IH]; intros out0.
  { split; [done | intros (pre & raw & Heq & _)]. by destruct pre. }
  simpl. destruct (difficulty_map !! strip' r) as [d' |] eqn:Hm.
  - pose proof (proj1 (difficulty_map_lookup _ _) Hm) as Hm'. split.
    + intros [= <- <- <-]. exists [], r. simpl. done.
    + intros (pre & raw & Heq & Hpre & Hd & ->).
      destruct pre as [| r' pre]; simpl in Heq.
      * injection Heq as -> ->. apply difficulty_map_lookup in Hd.
        simpl. congruence.
      * injection Heq as <- ->. apply Forall_cons in Hpre as [Hbad _].
        destruct Hbad. rewrite !elem_of_cons.
        destruct Hm' as [[Hr _] | [[Hr _] | [Hr _]]]; rewrite Hr; auto.
  - assert (Hnot : strip' r ∉ [[49]; [50]; [51]]%N).
    { rewrite !elem_of_cons, elem_of_nil.
      intros [Hr | [Hr | [Hr | []]]]; rewrite Hr in Hm; by vm_compute in Hm. }
    rewrite IH. split.
    + intros (pre & raw & -> & Hpre & Hd & ->).
      exists (r :: pre), raw. split; [done |]. split; [by constructor |].
      split; [done |]. simpl. by rewrite <- !(assoc_L (++)).
    + intros (pre & raw & Heq & Hpre & Hd & ->).
      destruct pre as [| r' pre]; simpl in Heq.
      * injection Heq as -> ->. apply difficulty_map_lookup in Hd. congruence.
      * injection Heq as <- ->. apply Forall_cons in Hpre as [_ Hpre].
        exists pre, raw. split; [done |]. split; [done |].
        split; [done |]. simpl. by rewrite <- !(assoc_L (++)).
Qed.

(** X24.  [select_difficulty] returns the difficulty of the first line that
    is ["1"], ["2"] or ["3"] after stripping (slow, medium, fast); every line
    before it is answered by the invalid-choice message, and the lines after
    it are left unread. *)
Theorem select_difficulty_first_valid_line
    (stdin rest : list str) (out : list Line) (d : Difficulty) :
  select_difficulty isspace stdin = Some (d, rest, out) <->
  exists pre raw,
    stdin = pre ++ raw :: rest /\
    Forall (fun r => strip' r ∉ [[49]; [50]; [51]]%N) pre /\
    ((strip' raw = [49%N] /\ d = SLOW) \/ (strip' raw = [50%N] /\ d = MEDIUM) \/
     (strip' raw = [51%N] /\ d = FAST)) /\
    out = DifficultyMenu
            :: (pre ≫= fun _ => [DifficultyPrompt; InvalidChoice])
            ++ [DifficultyPrompt].
Proof. apply select_difficulty_loop_spec. Qed.

End ConsoleProperties.

(** ** The further properties at concrete inputs *)

Lemma fresh_reachable : Reachable_pygame (fresh_game, fresh_world).
Proof.
  exists (world_of_draws 0 0), (fresh_game, fresh_world).
  split; [reflexivity | apply rtc_refl].
Qed.

(** A snake of three cells heading right. *)
Definition three_cells : SnakeGame :=
  mkGame [(40, 200); (20, 200); (0, 200)] (20, 0) (100, 100) 2 false.

(** The snake fills the grid; its head at [(0, 380)] heads up. *)
Definition full_game : SnakeGame := mkGame full_snake (0, -20) (0, 0) 599 false.

Lemma tick_raises_iff_empty_witness :
  _update_game_state (mkGame [] (20, 0) (0, 0) 0 false) fresh_world = None.
Proof.
  apply (proj2 (tick_raises_iff_empty (mkGame [] (20, 0) (0, 0) 0 false)
                  fresh_world)).
  reflexivity.
Defined.

Lemma session_tick_never_raises_witness :
  snake crashed <> [] /\
  exists g' w', _update_game_state crashed fresh_world = Some (g', w').
Proof.
  apply (session_tick_never_raises pygame.K_UP pygame.K_DOWN pygame.K_LEFT
           pygame.K_RIGHT crashed (beeped fresh_world) fresh_world).
  apply crashed_reachable.
Defined.

Lemma session_length_is_score_plus_one_witness :
  Z.of_nat (length (snake crashed)) = score crashed + 1 /\ 0 <= score crashed.
Proof.
  apply (session_length_is_score_plus_one pygame.K_UP pygame.K_DOWN
           pygame.K_LEFT pygame.K_RIGHT (crashed, beeped fresh_world)).
  apply crashed_reachable.
Defined.

Lemma session_cells_in_bounds_witness :
  Forall in_bounds (snake crashed) /\ in_bounds (food_pos crashed).
Proof.
  apply (session_cells_in_bounds pygame.K_UP pygame.K_DOWN pygame.K_LEFT
           pygame.K_RIGHT (crashed, beeped fresh_world)).
  apply crashed_reachable.
Defined.

Lemma session_snake_cells_distinct_witness : NoDup (snake after_meal).
Proof.
  apply (session_snake_cells_distinct pygame.K_UP pygame.K_DOWN pygame.K_LEFT
           pygame.K_RIGHT (after_meal, meal_end_world)).
  apply meal_reachable.
Defined.

Lemma session_snake_contiguous_witness : contiguous (snake after_meal).
Proof.
  apply (session_snake_contiguous pygame.K_UP pygame.K_DOWN pygame.K_LEFT
           pygame.K_RIGHT (after_meal, meal_end_world)).
  apply meal_reachable.
Defined.

Lemma session_length_at_most_grid_witness :
  (length (snake crashed) <= 600)%nat /\ score crashed <= 599.
Proof.
  apply (session_length_at_most_grid pygame.K_UP pygame.K_DOWN pygame.K_LEFT
           pygame.K_RIGHT (crashed, beeped fresh_world)).
  apply crashed_reachable.
Defined.

Lemma tick_keeps_direction_and_food_witness :
  direction (set_snake [(60, 200); (40, 200); (20, 200)] three_cells)
    = direction three_cells /\
  (_check_collision three_cells (advance three_cells (40, 200)) = true \/
   advance three_cells (40, 200) <> food_pos three_cells ->
   food_pos (set_snake [(60, 200); (40, 200); (20, 200)] three_cells)
     = food_pos three_cells).
Proof.
  apply (tick_keeps_direction_and_food three_cells _ fresh_world fresh_world
           (40, 200) [(20, 200); (0, 200)]); reflexivity.
Defined.

Lemma tick_effects_witness :
  (exists g' w',
     _update_game_state at_left_wall fresh_world = Some (g', w') /\
     beeps w' = S (beeps fresh_world) /\
     forall i : nat, rng w' i = rng fresh_world (0 + i)%nat) /\
  (exists g' w',
     _update_game_state meal_start (drawn 2 meal_world) = Some (g', w') /\
     beeps w' = beeps (drawn 2 meal_world) /\
     forall i : nat, rng w' i = rng (drawn 2 meal_world) (2 + i)%nat).
Proof.
  split.
  - apply (tick_effects at_left_wall fresh_world (0, 200) [(20, 200)]).
    reflexivity.
  - apply (tick_effects meal_start (drawn 2 meal_world) (300, 200) []).
    reflexivity.
Defined.

Lemma tick_body_follows_head_witness :
  exists g' w',
    _update_game_state three_cells fresh_world = Some (g', w') /\
    snake g' !! 0%nat = Some (advance three_cells (40, 200)) /\
    forall i : nat, (S i < length (snake g'))%nat ->
      snake g' !! S i = snake three_cells !! i.
Proof.
  apply (tick_body_follows_head three_cells fresh_world
           (40, 200) [(20, 200); (0, 200)]); reflexivity.
Defined.

Lemma tick_vacates_tail_witness :
  exists g',
    _update_game_state three_cells fresh_world = Some (g', fresh_world) /\
    ((0, 200) ∉ snake g') /\
    forall c : Cell, c ∈ snake g' <->
      c = advance three_cells (40, 200) \/
      (c ∈ snake three_cells /\ c <> (0, 200)).
Proof.
  apply (tick_vacates_tail three_cells fresh_world
           (40, 200) (0, 200) [(20, 200); (0, 200)]);
    try reflexivity; try discriminate.
  apply (bool_decide_unpack _). vm_compute. exact I.
Defined.

Lemma full_board_tick_is_game_over_witness :
  _update_game_state full_game fresh_world =
    Some (set_game_over true full_game, beeped fresh_world).
Proof.
  apply (full_board_tick_is_game_over full_game fresh_world (0, 380)
           (tail full_snake)).
  - right; right; right. reflexivity.
  - split; simpl; [by exists 0 | by exists 19].
  - vm_compute. reflexivity.
  - apply full_snake_board_full.
Defined.

Lemma ticks_score_and_length_bounds_witness :
  score fresh_game <= score fresh_game <= score fresh_game + Z.of_nat 15 /\
  (length (snake fresh_game) <= 1 <= length (snake fresh_game) + 15)%nat.
Proof.
  apply (ticks_score_and_length_bounds 15 fresh_game
           (mkGame [(580, 200)] (20, 0) (0, 0) 0 true)
           fresh_world (beeped fresh_world)).
  vm_compute. reflexivity.
Defined.

Lemma ticks_after_collision_witness :
  ticks 3 at_left_wall fresh_world =
    Some (set_game_over true at_left_wall,
          mkWorld (rng fresh_world) (3 + beeps fresh_world)).
Proof.
  apply (ticks_after_collision 2 at_left_wall fresh_world (0, 200) [(20, 200)]);
    reflexivity.
Defined.

Lemma handle_input_false_iff_quit_witness :
  (handle_input_pygame [KEYDOWN pygame.K_UP; QUIT; KEYDOWN pygame.K_LEFT]
     fresh_game).1 = false.
Proof.
  apply (proj2 (handle_input_false_iff_quit pygame.K_UP pygame.K_DOWN
                  pygame.K_LEFT pygame.K_RIGHT _ fresh_game)).
  apply elem_of_cons. right. apply elem_of_cons. left. reflexivity.
Defined.

Lemma two_keys_reverse_in_one_frame_witness :
  exists k1 k2,
    handle_input_pygame [KEYDOWN k1; KEYDOWN k2] three_cells =
      (true, set_direction (opposite (direction three_cells)) three_cells).
Proof.
  apply (two_keys_reverse_in_one_frame pygame.K_UP pygame.K_DOWN pygame.K_LEFT
           pygame.K_RIGHT three_cells).
  - apply (bool_decide_unpack _). vm_compute. exact I.
  - left. reflexivity.
Defined.

Lemma reversal_in_one_frame_is_fatal_witness :
  exists k1 k2 g1,
    handle_input_pygame [KEYDOWN k1; KEYDOWN k2] three_cells = (true, g1) /\
    advance g1 (40, 200) = (20, 200) /\
    _update_game_state g1 fresh_world =
      Some (set_game_over true g1, beeped fresh_world).
Proof.
  apply (reversal_in_one_frame_is_fatal pygame.K_UP pygame.K_DOWN pygame.K_LEFT
           pygame.K_RIGHT three_cells fresh_world (40, 200) (20, 200)
           [(0, 200)]).
  - apply (bool_decide_unpack _). vm_compute. exact I.
  - left. reflexivity.
  - reflexivity.
  - reflexivity.
Defined.

(** The lines ["  "], a line of 21 letters and [" Ann "], and a line left
    unread. *)
Definition name_lines : list str :=
  [[32; 32]; replicate 21 97; [32; 65; 110; 110; 32]; [66; 111; 98]]%N.

(** A standard output that encodes every line written here, and one that
    encodes ASCII text only. *)
Definition stdout_utf8 : Line -> bool := fun _ => true.
Definition stdout_ascii : Line -> bool := fun l =>
  match l with
  | NameBanner | NameEmpty | NameTooLong | Welcome _ => false
  | _ => true
  end.

Lemma get_player_name_first_valid_line_witness :
  get_player_name py_isspace stdout_utf8 name_lines =
    inr ([65; 110; 110]%N, [[66; 111; 98]%N],
         [NameBanner; NamePrompt; NameEmpty; NamePrompt; NameTooLong;
          NamePrompt; Welcome [65; 110; 110]%N]).
Proof.
  apply (proj2 (get_player_name_first_valid_line py_isspace stdout_utf8
                  name_lines _ _ _)).
  split; [reflexivity |].
  exists [[32; 32]; replicate 21 97]%N, [32; 65; 110; 110; 32]%N.
  split; [reflexivity |]. split.
  - repeat constructor; intros [Hne Hlen]; vm_compute in Hne, Hlen;
      [by apply Hne | lia].
  - split; [by vm_compute |]. split; [| split; [reflexivity | by vm_compute]].
    split; [discriminate | vm_compute; lia].
Defined.

Lemma get_player_name_result_witness :
  (1 <= length [65; 110; 110]%N <= 20)%nat /\
  (forall c, head [65; 110; 110]%N = Some c -> py_isspace c = false) /\
  (forall c, last [65; 110; 110]%N = Some c -> py_isspace c = false).
Proof.
  apply (get_player_name_result py_isspace stdout_utf8 name_lines
           [[66; 111; 98]%N]
           [NameBanner; NamePrompt; NameEmpty; NamePrompt; NameTooLong;
            NamePrompt; Welcome [65; 110; 110]%N]).
  vm_compute. reflexivity.
Defined.

Lemma get_player_name_eof_witness :
  get_player_name py_isspace stdout_utf8 [[32; 32]; replicate 21 97]%N
    = inl EOFError.
Proof.
  apply (proj2 (get_player_name_eof py_isspace stdout_utf8 _)).
  split; [reflexivity |].
  repeat constructor; intros [Hne Hlen]; vm_compute in Hne, Hlen;
    [by apply Hne | lia].
Defined.

Lemma get_player_name_encode_error_witness :
  get_player_name py_isspace stdout_ascii name_lines = inl UnicodeEncodeError /\
  get_player_name py_isspace
    (fun l => match l with NameTooLong => false | _ => true end) name_lines
    = inl UnicodeEncodeError.
Proof.
  split.
  - apply (proj2 (get_player_name_encode_error py_isspace stdout_ascii
                    name_lines)).
    left. reflexivity.
  - apply (proj2 (get_player_name_encode_error py_isspace _ name_lines)).
    right. exists [[32; 32]%N], (replicate 21 97%N), [[32; 65; 110; 110; 32];
                                                    [66; 111; 98]]%N.
    split; [reflexivity |]. split.
    + repeat constructor.
      intros [Hne _]. vm_compute in Hne. by apply Hne.
    + rewrite decide_False; [reflexivity |].
      intros [_ Hlen]. vm_compute in Hlen. lia.
Defined.

Lemma select_difficulty_first_valid_line_witness :
  select_difficulty py_isspace [[52]; [32; 51; 10]; [49]]%N =
    Some (FAST, [[49%N]],
          [DifficultyMenu; DifficultyPrompt; InvalidChoice; DifficultyPrompt]).
Proof.
  apply (proj2 (select_difficulty_first_valid_line py_isspace _ _ _ _)).
  exists [[52%N]], [32; 51; 10]%N.
  split; [reflexivity |]. split.
  - repeat constructor. rewrite !elem_of_cons, elem_of_nil.
    vm_compute. intros [H | [H | [H | []]]]; discriminate.
  - split; [| reflexivity]. right; right. split; [by vm_compute | reflexivity].
Defined.
